(** * minka-downloader: the ordered task executor and the fetch pipeline

    A shallow embedding of [parallelism.py] (the executors [threadify] and
    [multiprocess]) and of [downloader.py] (the HTTP helpers, the paginated
    query, the picture download handler and the per-taxon picture listing),
    with the properties of the specification stated over it. *)

From Stdlib Require Import Ascii.
From stdpp Require Import gmap strings list sorting pretty.
From Equations Require Import Equations.

Open Scope Z_scope.

(** ** Outcomes of Python calls *)

(** A call either returns a value or raises an exception. *)
Inductive outcome (E A : Type) : Type :=
| Returned (a : A)
| Raised (e : E).
Arguments Returned {E A} a.
Arguments Raised {E A} e.


(** ** [parallelism.py] *)

Module Parallelism.

(** What the console widget [rich.progress.Progress] is asked to do, in the
    order the calls are made: [with Progress() as progress] starts the live
    display on entry and stops it on exit, [add_task] creates the bar with
    its total, [update(task, advance=k)] adds [k] to the completed count. *)
Inductive progress_event : Type :=
| ProgressStart
| AddTask (text : string) (total : nat)
| Update (advance : nat)
| ProgressStop.

Global Instance progress_event_eq_dec : EqDecision progress_event.
Proof. solve_decision. Defined.

(** The completed count of the bar after a sequence of calls. *)
Fixpoint completed (log : list progress_event) : nat :=
  match log with
  | [] => 0%nat
  | Update advance :: log => (advance + completed log)%nat
  | _ :: log => completed log
  end.

(** The total the bar was created with, if it was created. *)
Fixpoint bar_total (log : list progress_event) : option nat :=
  match log with
  | [] => None
  | AddTask _ total :: _ => Some total
  | _ :: log => bar_total log
  end.

(** The counter an observer of the bar reads: the completed count once the
    task is added, and again after every [update]. *)
Fixpoint observed_from (count : nat) (log : list progress_event) : list nat :=
  match log with
  | [] => []
  | AddTask _ _ :: log => count :: observed_from count log
  | Update advance :: log =>
      (count + advance)%nat :: observed_from (count + advance)%nat log
  | _ :: log => observed_from count log
  end.

Definition observed (log : list progress_event) : list nat :=
  observed_from 0%nat log.

(** Exceptions that leave an executor: the pool constructor rejects a
    worker count that is not positive ([ValueError]), the constructor of
    the process pool fails on a worker count beyond what the platform
    allows ([OverflowError] where the call queue of [max_workers + 1] slots
    no longer fits a C int), and an exception held by a future is re-raised
    by [future.result()]. *)
Inductive pool_error (E : Type) : Type :=
| MaxWorkersValueError
| PoolLimitError
| HandlerError (e : E).
Arguments MaxWorkersValueError {E}.
Arguments PoolLimitError {E}.
Arguments HandlerError {E} e.

Section Executor.
Context {Args R E : Type}.

(** A handler is a function of its argument tuple that returns or raises. *)
Definition Handler : Type := Args → outcome E R.

(** A future stands for one submitted call; [future.result()] returns what
    the call returned or raises what it raised. *)
Definition Future : Type := outcome E (nat * R).

Definition __threadify_index_handler
    (index : nat) (handler : Handler) (args : Args) : outcome E (nat * R) :=
  match handler args with
  | Returned result => Returned (index, result)
  | Raised e => Raised e
  end.

(** [for args in arg_list: threads.append(executor.submit(...)); index += 1] *)
Fixpoint submit_all (handler : Handler) (arg_list : list Args)
    (index : nat) (threads : list Future) : list Future * nat :=
  match arg_list with
  | [] => (threads, index)
  | args :: arg_list =>
      submit_all handler arg_list (S index)
        (threads ++ [__threadify_index_handler index handler args])
  end.

(** The same loop in [multiprocess]:
    [processes.append(executor.submit(__threadify_index_handler, index,
    handler, args))] on a pool of spawned processes.  The call, its
    arguments and its result or exception cross the process boundary
    pickled; [shipped index handler args] is what the future of the call
    yields on the other side. *)
Fixpoint submit_processes (shipped : nat → Handler → Args → Future)
    (handler : Handler) (arg_list : list Args)
    (index : nat) (processes : list Future) : list Future * nat :=
  match arg_list with
  | [] => (processes, index)
  | args :: arg_list =>
      submit_processes shipped handler arg_list (S index)
        (processes ++ [shipped index handler args])
  end.

(** [for future in futures.as_completed(threads): ...], run on the futures
    in the order in which they complete.  The loop carries the list of
    results and the calls made on the progress bar; an exception raised by
    [future.result()] leaves the loop at once. *)
Fixpoint collect (done_order : list Future) (results : list (nat * R))
    (log : list progress_event)
    : outcome E (list (nat * R)) * list progress_event :=
  match done_order with
  | [] => (Returned results, log)
  | future :: done_order =>
      match future with
      | Raised e => (Raised e, log)
      | Returned future_result =>
          collect done_order (results ++ [future_result]) (log ++ [Update 1%nat])
      end
  end.

(** [sorted(results, key=lambda a: a[0])]: a stable sort on the index. *)
Fixpoint insert_by_index (a : nat * R) (l : list (nat * R)) : list (nat * R) :=
  match l with
  | [] => [a]
  | b :: l' =>
      if decide (a.1 ≤ b.1)%nat then a :: l else b :: insert_by_index a l'
  end.

Definition sorted_by_index (results : list (nat * R)) : list (nat * R) :=
  foldr insert_by_index [] results.

(** [for result in sorted_results: final_results.append(result[1])] *)
Fixpoint strip_indexes (sorted_results : list (nat * R)) (final_results : list R)
    : list R :=
  match sorted_results with
  | [] => final_results
  | result :: sorted_results =>
      strip_indexes sorted_results (final_results ++ [result.2])
  end.

(** [threadify(arg_list, handler, max_threads=10, text="progress...")].
    [ThreadPoolExecutor(max_workers=max_threads)] raises [ValueError] for
    a worker count that is not positive; [as_completed] is the order in
    which the pool completes the futures it was given. *)
Definition threadify (as_completed : list Future → list Future)
    (arg_list : list Args) (handler : Handler) (max_threads : Z) (text : string)
    : outcome (pool_error E) (list R) * list progress_event :=
  if decide (max_threads ≤ 0) then (Raised MaxWorkersValueError, [])
  else
    let '(threads, index) := submit_all handler arg_list 0%nat [] in
    let log := [ProgressStart; AddTask text index] in
    match collect (as_completed threads) [] log with
    | (Raised e, log) => (Raised (HandlerError e), log ++ [ProgressStop])
    | (Returned results, log) =>
        let sorted_results := sorted_by_index results in
        (Returned (strip_indexes sorted_results []), log ++ [ProgressStop])
    end.

(** [multiprocess(arg_list, handler, max_workers=20, text="progress...")].
    [ProcessPoolExecutor(max_workers=max_workers, mp_context=ctx)] raises
    [ValueError] for a worker count that is not positive and fails for one
    above [pool_limit], the largest count the platform builds the pool for;
    the submitted calls run in spawned processes ([shipped]);
    [as_completed] is the order in which the pool completes the futures. *)
Definition multiprocess (shipped : nat → Handler → Args → Future) (pool_limit : Z)
    (as_completed : list Future → list Future)
    (arg_list : list Args) (handler : Handler) (max_workers : Z) (text : string)
    : outcome (pool_error E) (list R) * list progress_event :=
  if decide (max_workers ≤ 0) then (Raised MaxWorkersValueError, [])
  else if decide (pool_limit < max_workers) then (Raised PoolLimitError, [])
  else
    let '(processes, index) := submit_processes shipped handler arg_list 0%nat [] in
    let log := [ProgressStart; AddTask text index] in
    match collect (as_completed processes) [] log with
    | (Raised e, log) => (Raised (HandlerError e), log ++ [ProgressStop])
    | (Returned results, log) =>
        let sorted_results := sorted_by_index results in
        (Returned (strip_indexes sorted_results []), log ++ [ProgressStop])
    end.

(** A completion order hands back every future exactly once, in any order. *)
Definition completion_order (as_completed : list Future → list Future) : Prop :=
  ∀ fs, as_completed fs ≡ₚ fs.

(** The order the sort puts results in. *)
Definition index_le (a b : nat * R) : Prop := (a.1 ≤ b.1)%nat.

End Executor.

(** The calls a run makes on the progress bar when all [n] tasks complete. *)
Definition run_log (text : string) (n : nat) : list progress_event :=
  [ProgressStart; AddTask text n] ++ replicate n (Update 1%nat) ++ [ProgressStop].

End Parallelism.


(** ** [downloader.py] *)

Module Downloader.

(** An HTTP response as [requests.get] hands it over. *)
Record Response : Type := {
  status_code : Z;
  text : string;
  content : list Byte.byte;
}.

(** The JSON the endpoints answer with: a page of observations
    ([resp["results"]], [resp["total_results"]]), every observation with
    its license code ([None] for JSON [null]) and its photos ([p["id"]]). *)
Record photo : Type := { photo_id : Z }.

Record observation : Type := {
  license_code : option string;
  photos : list photo;
}.

Record page : Type := {
  results : list observation;
  total_results : Z;
}.

Inductive exn : Type :=
| ValueError (msg : string)
| JSONDecodeError
| ZeroDivisionError
| UnboundLocalError
| ConnectionError
| OSError (name : string).

Global Instance exn_eq_dec : EqDecision exn.
Proof. solve_decision. Defined.

(** What the program does to its surroundings: the GET requests it has
    issued (URL and query parameters, oldest first) and the files it has
    written.  Console messages are left out. *)
Record world : Type := {
  requests : list (string * gmap string Z);
  files : gmap string (list Byte.byte);
}.

(** Computations that touch the surroundings and may raise. *)
Definition M (A : Type) : Type := world → outcome exn A * world.

Definition ret {A} (a : A) : M A := λ w, (Returned a, w).

Definition raise {A} (e : exn) : M A := λ w, (Raised e, w).

Definition bind {A B} (c : M A) (k : A → M B) : M B :=
  λ w, match c w with
       | (Returned a, w') => k a w'
       | (Raised e, w') => (Raised e, w')
       end.

Notation "'let*' x ':=' c 'in' k" := (bind c (λ x, k))
  (at level 10, x name, c at level 100, k at level 200).

(** What [with open(output, "wb") as f: f.write(data)] comes to: the file
    holds [data]; or [open] raises and the file is as it was; or [open] has
    emptied the file and the write raises, leaving [kept] in it. *)
Inductive write_outcome : Type :=
| Written
| OpenFailed (e : exn)
| WriteFailed (e : exn) (kept : list Byte.byte).

(** [with open(path, "w") as f: ...] for the [failed.txt] of a taxon, in the
    folder that the script has created for the taxon beforehand; the write
    is taken to succeed. *)
Definition write_file (output : string) (data : list Byte.byte) : M unit :=
  λ w, (Returned (), {| requests := requests w; files := <[output := data]> (files w) |}).

(** [if license:] on a value that is [None] or a string. *)
Definition truthy (license : option string) : bool :=
  match license with
  | None => false
  | Some s => bool_decide (s ≠ "")
  end.

(** [np.ceil(total/per_page)] for [per_page ≠ 0]: the ceiling of the exact
    quotient, which is what the float division gives for totals below
    2^53. *)
Definition ceil_div (total per_page : Z) : Z := - ((- total) `div` per_page).

(** The sorted list of the distinct elements. *)
Fixpoint insert_unique (x : Z) (l : list Z) : list Z :=
  match l with
  | [] => [x]
  | y :: l' =>
      if decide (x < y) then x :: l
      else if decide (x = y) then l
      else y :: insert_unique x l'
  end.

Definition sorted_unique (l : list Z) : list Z := foldr insert_unique [] l.

(** The array that [np.unique] makes of a list of Python integers has a
    fixed element type: a signed 64-bit integer for a value that fits one,
    an unsigned one for a larger value below 2^64, a Python object beyond
    that.  The types of the elements are promoted to one type for the
    array, and signed with unsigned gives a 64-bit float. *)
Inductive dtype : Type := int64 | uint64 | float64 | object.

Global Instance dtype_eq_dec : EqDecision dtype.
Proof. solve_decision. Defined.

Definition fits_int64 (n : Z) : bool := bool_decide (- 2 ^ 63 ≤ n < 2 ^ 63).

Definition fits_uint64 (n : Z) : bool := bool_decide (2 ^ 63 ≤ n < 2 ^ 64).

Definition np_dtype (l : list Z) : dtype :=
  match l with
  | [] => float64
  | _ =>
      if existsb (λ n, negb (fits_int64 n) && negb (fits_uint64 n)) l then object
      else if existsb fits_uint64 l then
        if existsb fits_int64 l then float64 else uint64
      else int64
  end.

(** The value of the 64-bit float nearest to an integer, ties going to the
    even significand of 53 bits; exact up to 2^53. *)
Definition float64_of_int (n : Z) : Z :=
  let a := Z.abs n in
  let e := Z.log2 a - 52 in
  if decide (e ≤ 0) then n
  else
    let q := a `div` 2 ^ e in
    let r := a `mod` 2 ^ e in
    let half := 2 ^ (e - 1) in
    let q' :=
      if decide (half < r) then q + 1
      else if decide (r = half) then (if Z.even q then q else q + 1)
      else q in
    Z.sgn n * (q' * 2 ^ e).

(** The elements of the array, each by its numeric value. *)
Definition np_array (l : list Z) : list Z :=
  if decide (np_dtype l = float64) then float64_of_int <$> l else l.

(** [np.unique]: the sorted distinct elements of the array. *)
Definition np_unique (l : list Z) : list Z := sorted_unique (np_array l).

Section Remote.
(** The network and the server behind it: what a GET on a URL with query
    parameters yields, a response or a transport exception. *)
Variable remote : string → gmap string Z → outcome exn Response.

(** [json.loads] on the body of a response, [None] where it raises. *)
Variable json_loads : string → option page.

(** [requests.get(url, params=params)] *)
Definition requests_get (url : string) (params : gmap string Z) : M Response :=
  λ w, (remote url params,
        {| requests := requests w ++ [(url, params)]; files := files w |}).

Definition minka_get (endpoint : string) (params : gmap string Z) : M page :=
  let minka_url := "https://minka-sdg.org:4000/v1/" in
  let* r := requests_get (minka_url +:+ endpoint) params in
  if decide (status_code r > 300) then
    raise (ValueError "Error in HTTP petition to MINKA")
  else
    match json_loads (text r) with
    | Some resp => ret resp
    | None => raise JSONDecodeError
    end.

(** [while i < npages: i += 1; params["page"] = i; ...; results += ...] *)
Equations? pages_loop (endpoint : string) (npages : Z) (i : Z)
    (params : gmap string Z) (results : list observation)
    : M (list observation) by wf (Z.to_nat (npages - i)) lt :=
  pages_loop endpoint npages i params results with decide (i < npages) := {
    | left _ =>
        let i' := i + 1 in
        let params' := <["page" := i']> params in
        let* resp := minka_get endpoint params' in
        pages_loop endpoint npages i' params' (results ++ resp.(Downloader.results))
    | right _ => ret results }.
Proof. lia. Qed.

Definition minka_get_pagination (endpoint : string) (params : gmap string Z)
    (per_page : Z) : M (list observation) :=
  let i := 1 in
  let params := <["per_page" := per_page]> params in
  let* resp := minka_get endpoint params in
  let results := resp.(Downloader.results) in
  let total := resp.(total_results) in
  if decide (per_page = 0) then raise ZeroDivisionError
  else
    let npages := ceil_div total per_page in
    let* results := pages_loop endpoint npages i params results in
    if decide (Z.of_nat (length results) ≠ total) then
      raise (ValueError "Expected and returned lengths do not match")
    else ret results.

Definition formats : list string := ["jpeg"; "jpg"; "png"].

Definition picture_url (pic_id : Z) (format : string) : string :=
  "https://minka-sdg.org/attachments/local_photos/files/" +:+ pretty pic_id
    +:+ "/original." +:+ format.

(** [for format in formats: url = ...; r = requests.get(url);
    if r.status_code < 300: success = True; break].  The loop carries
    [success] and the last [url] and [r] bound, if any. *)
Fixpoint formats_loop (pic_id : Z) (formats : list string)
    (last : option (string * Response)) : M (bool * option (string * Response)) :=
  match formats with
  | [] => ret (false, last)
  | format :: formats =>
      let url := picture_url pic_id format in
      let* r := requests_get url ∅ in
      if decide (status_code r < 300) then ret (true, Some (url, r))
      else formats_loop pic_id formats (Some (url, r))
  end.

(** The file system under the program: what writing [data] to the path
    [output] comes to. *)
Variable disk : string → list Byte.byte → write_outcome.

(** [with open(output, "wb") as f: f.write(data)] *)
Definition open_write (output : string) (data : list Byte.byte) : M unit :=
  λ w, match disk output data with
       | Written =>
           (Returned (),
            {| requests := requests w; files := <[output := data]> (files w) |})
       | OpenFailed e => (Raised e, w)
       | WriteFailed e kept =>
           (Raised e,
            {| requests := requests w; files := <[output := kept]> (files w) |})
       end.

Definition download_picture (pic_id : Z) (output : string) : M (bool * string) :=
  let* found := formats_loop pic_id formats None in
  let success := found.1 in
  match found.2 with
  | None => raise UnboundLocalError
  | Some (url, r) =>
      let* _ := (if success then open_write output (content r) else ret ()) in
      ret (success, url)
  end.

(** [for p in r["photos"]: pic_ids.append(p["id"]); licenses[p["id"]] = ...] *)
Fixpoint photos_loop (license : option string) (photos : list photo)
    (pic_ids : list Z) (licenses : gmap Z string) : list Z * gmap Z string :=
  match photos with
  | [] => (pic_ids, licenses)
  | p :: photos =>
      let pic_ids := pic_ids ++ [photo_id p] in
      let licenses :=
        match license with
        | Some s => if truthy license then <[photo_id p := s]> licenses
                    else <[photo_id p := "unknown"]> licenses
        | None => <[photo_id p := "unknown"]> licenses
        end in
      photos_loop license photos pic_ids licenses
  end.

(** [for r in results: license = r["license_code"]; for p in ...] *)
Fixpoint results_loop (results : list observation)
    (pic_ids : list Z) (licenses : gmap Z string) : list Z * gmap Z string :=
  match results with
  | [] => (pic_ids, licenses)
  | r :: results =>
      let license := license_code r in
      let '(pic_ids, licenses) := photos_loop license (photos r) pic_ids licenses in
      results_loop results pic_ids licenses
  end.

Definition get_pictures_from_taxa (taxa_id : Z) (taxa : string)
    : M (list Z * gmap Z string) :=
  let* results := minka_get_pagination "observations" {["taxon_id" := taxa_id]} 200 in
  let licenses := ∅ in
  let pic_ids := [] in
  let '(pic_ids, licenses) := results_loop results pic_ids licenses in
  let pic_ids := np_unique pic_ids in
  ret (pic_ids, licenses).

(** A GET on [url] with [params] is answered, with a status that
    [minka_get] lets through and a body that decodes to the page [p]. *)
Definition serves (url : string) (params : gmap string Z) (p : page) : Prop :=
  ∃ r, remote url params = Returned r ∧ status_code r ≤ 300 ∧
       json_loads (text r) = Some p.
End Remote.

(** The surroundings after some more requests. *)
Definition logged (w : world) (reqs : list (string * gmap string Z)) : world :=
  {| requests := requests w ++ reqs; files := files w |}.

(** The picture ids of an observation, in the order of its photos. *)
Definition photo_ids (o : observation) : list Z := photo_id <$> photos o.

(** The license stored for the photos of an observation. *)
Definition license_text (license : option string) : string :=
  match license with
  | Some s => if decide (s = "") then "unknown" else s
  | None => "unknown"
  end.

End Downloader.

(** ** The script of [downloader.py] *)

Module Script.
Import Downloader.

(** A result of the taxa endpoint: [result["name"]] and [result["id"]]. *)
Record taxon : Type := { taxon_name : string; taxon_id : Z }.

(** [s.replace(old, new)] where [old] is a single character. *)
Fixpoint replace (old : Ascii.ascii) (new : string) (s : string) : string :=
  match s with
  | EmptyString => EmptyString
  | String c s' =>
      if decide (c = old) then new +:+ replace old new s'
      else String c (replace old new s')
  end.

(** The character occurs in the string. *)
Fixpoint occurs (c : Ascii.ascii) (s : string) : bool :=
  match s with
  | EmptyString => false
  | String c' s' => bool_decide (c' = c) || occurs c s'
  end.

(** [len([s for s, _ in stats if s is True])] *)
Definition good (stats : list (bool * string)) : nat :=
  length (filter (λ s, s.1 = true) stats).

(** [len([s for s, _ in stats if s is False])] *)
Definition bad (stats : list (bool * string)) : nat :=
  length (filter (λ s, s.1 = false) stats).

(** [[f.write(url + "\n") for status, url in stats if not status]], as the
    text that ends up in the file. *)
Fixpoint failed_text (stats : list (bool * string)) : string :=
  match stats with
  | [] => ""
  | (status, url) :: stats =>
      if negb status then (url +:+ String "010"%char "") +:+ failed_text stats
      else failed_text stats
  end.

Section Builtins.
(** [str.lower] *)
Variable lower : string → string.

(** [os.path.join] on its list of arguments *)
Variable os_path_join : list string → string.

(** [taxa.lower().replace(" ", "_").replace(".", "")], the value of
    [normalized_names[taxa]]. *)
Definition normalized_name (taxa : string) : string :=
  replace "."%char "" (replace " "%char "_" (lower taxa)).

(** [for result in resp["results"]: if result["name"].lower() ==
    taxa.lower(): taxa_id = result["id"]; break], started with
    [taxa_id = ""], which is [None] here. *)
Fixpoint exact_match (taxa : string) (results : list taxon) (taxa_id : option Z)
    : option Z :=
  match results with
  | [] => taxa_id
  | result :: results =>
      if decide (lower (taxon_name result) = lower taxa) then Some (taxon_id result)
      else exact_match taxa results taxa_id
  end.

(** [if not taxa_id: continue] and otherwise [taxa_ids[taxa] = taxa_id]:
    the empty string and the number 0 are falsy. *)
Definition record_taxa_id (taxa : string) (results : list taxon)
    (taxa_ids : gmap string Z) : gmap string Z :=
  match exact_match taxa results None with
  | None => taxa_ids
  | Some taxa_id =>
      if decide (taxa_id = 0) then taxa_ids else <[taxa := taxa_id]> taxa_ids
  end.

(** The end of the work on one taxon: count the outcomes, write the
    locators of the failed downloads to [failed.txt], print the two
    percentages [100*(good/total)] and [100*(bad/total)]. *)
Definition report (output taxa_norm : string) (stats : list (bool * string))
    (total : nat) : M (nat * nat) :=
  let good := good stats in
  let bad := bad stats in
  let* _ := write_file (os_path_join [output; taxa_norm; "failed.txt"])
              (String.list_byte_of_string (failed_text stats)) in
  if decide (total = 0%nat) then raise ZeroDivisionError
  else ret (good, bad).
End Builtins.

End Script.

(** ** A small server to run the pipeline against *)

Import Downloader.

Definition demo_observation (license : option string) (ids : list Z) : observation :=
  {| license_code := license; photos := (λ n, {| photo_id := n |}) <$> ids |}.

(** Five observations; picture 3 is in the first and in the fourth. *)
Definition demo_o1 : observation := demo_observation (Some "cc-by") [5; 3].
Definition demo_o2 : observation := demo_observation None [4].
Definition demo_o3 : observation := demo_observation (Some "") [9].
Definition demo_o4 : observation := demo_observation (Some "cc0") [3].
Definition demo_o5 : observation := demo_observation (Some "cc-by-nc") [1].

(** The pages of the five observations, two per page, and the single page
    of all of them. *)
Definition demo_pages (k : Z) : page :=
  if decide (k = 1) then {| results := [demo_o1; demo_o2]; total_results := 5 |}
  else if decide (k = 2) then {| results := [demo_o3; demo_o4]; total_results := 5 |}
  else {| results := [demo_o5]; total_results := 5 |}.

Definition demo_whole : page :=
  {| results := [demo_o1; demo_o2; demo_o3; demo_o4; demo_o5]; total_results := 5 |}.

(** The same server when its second page comes back short. *)
Definition demo_short_pages (k : Z) : page :=
  if decide (k = 2) then {| results := [demo_o3]; total_results := 5 |} else demo_pages k.

Definition demo_json_loads (body : string) : option page :=
  if decide (body = "page 1") then Some (demo_pages 1)
  else if decide (body = "page 2") then Some (demo_pages 2)
  else if decide (body = "page 3") then Some (demo_pages 3)
  else if decide (body = "short page 2") then Some (demo_short_pages 2)
  else if decide (body = "whole") then Some demo_whole
  else None.

Definition demo_png : list Byte.byte := [Byte.x89; Byte.x50; Byte.x4e; Byte.x47].

Definition demo_answer (status : Z) (body : string) : outcome exn Response :=
  Returned {| status_code := status; text := body; content := [] |}.

(** Observations are served by page, the last page with status 300;
    picture 7 exists as a png only, the jpg attempt answering 300. *)
Definition demo_remote (url : string) (params : gmap string Z) : outcome exn Response :=
  if decide (url = "https://minka-sdg.org:4000/v1/observations") then
    match params !! "per_page", params !! "page" with
    | Some 2, None => demo_answer 200 "page 1"
    | Some 2, Some 2 => demo_answer 200 "page 2"
    | Some 2, Some 3 => demo_answer 300 "page 3"
    | Some 200, None => demo_answer 200 "whole"
    | _, _ => demo_answer 404 "not found"
    end
  else if decide (url = picture_url 7 "jpeg") then demo_answer 404 "not found"
  else if decide (url = picture_url 7 "jpg") then demo_answer 300 "multiple choices"
  else if decide (url = picture_url 7 "png") then
    Returned {| status_code := 200; text := ""; content := demo_png |}
  else Raised ConnectionError.

(** The same server with the short second page. *)
Definition demo_short_remote (url : string) (params : gmap string Z)
    : outcome exn Response :=
  if decide (params !! "page" = Some 2) then demo_answer 200 "short page 2"
  else demo_remote url params.

Definition demo_w0 : world := {| requests := []; files := ∅ |}.

(** A file system on which every write succeeds, and one that has no
    folder [nodir]. *)
Definition demo_disk (output : string) (data : list Byte.byte) : write_outcome :=
  Written.

Definition demo_nodir_disk (output : string) (data : list Byte.byte)
    : write_outcome :=
  if String.prefix "nodir/" output then OpenFailed (OSError "FileNotFoundError")
  else Written.

(** Two observations whose picture ids, 2^63 + 1 and -1, do not fit one
    integer type of 64 bits, and the page that lists them. *)
Definition demo_big : list observation :=
  [demo_observation (Some "cc-by") [2 ^ 63 + 1]; demo_observation (Some "cc0") [-1]].

Definition demo_big_json_loads (body : string) : option page :=
  if decide (body = "whole") then Some {| results := demo_big; total_results := 2 |}
  else None.

(** The same server when its second page answers 503. *)
Definition demo_failing_remote (url : string) (params : gmap string Z)
    : outcome exn Response :=
  if decide (params !! "page" = Some 2) then demo_answer 503 "unavailable"
  else demo_remote url params.

(** Lower case for the letters A to Z. *)
Definition demo_lower_char (c : Ascii.ascii) : Ascii.ascii :=
  let n := Ascii.N_of_ascii c in
  if decide (65 ≤ n ≤ 90)%N then Ascii.ascii_of_N (n + 32) else c.

Fixpoint demo_lower (s : string) : string :=
  match s with
  | EmptyString => EmptyString
  | String c s' => String (demo_lower_char c) (demo_lower s')
  end.

Definition demo_join (parts : list string) : string :=
  foldr (λ part path, if decide (path = "") then part else part +:+ "/" +:+ path)
    "" parts.

(** An answer of the taxa endpoint to the query "chromis chromis". *)
Definition demo_taxa : list Script.taxon :=
  [ {| Script.taxon_name := "Chromis"; Script.taxon_id := 41 |};
    {| Script.taxon_name := "Chromis chromis"; Script.taxon_id := 12 |};
    {| Script.taxon_name := "CHROMIS CHROMIS"; Script.taxon_id := 99 |} ].

(** The observations of the small server listed the other way round. *)
Definition demo_reversed_json_loads (body : string) : option page :=
  if decide (body = "whole")
  then Some {| results := [demo_o5; demo_o4; demo_o3; demo_o2; demo_o1];
               total_results := 5 |}
  else None.


(** * Properties of the executors *)

Module ParallelismFacts.
Import Parallelism.

(** *** The submission loop *)

Section Submission.
Context {Args R E : Type}.
Implicit Types (handler : @Handler Args R E) (arg_list : list Args).

Lemma submit_all_spec handler arg_list index threads :
  submit_all handler arg_list index threads =
    (threads ++ imap (λ k, __threadify_index_handler (index + k) handler) arg_list,
     (index + length arg_list)%nat).
Proof.
  revert index threads.
  induction arg_list as [|args arg_list IH]; intros index threads; simpl.
  - by rewrite app_nil_r, Nat.add_0_r.
  - rewrite IH, <-app_assoc. simpl. rewrite Nat.add_0_r.
    f_equal; [|lia]. do 2 f_equal.
    apply imap_ext. intros k a _. simpl. f_equal. lia.
Qed.

(** The futures of a handler that returns on every task: each one holds
    the position of its task next to what the handler made of it. *)
Lemma submitted_returned handler (h : Args → R) arg_list index :
  (∀ args, args ∈ arg_list → handler args = Returned (h args)) →
  imap (λ k, __threadify_index_handler (index + k) handler) arg_list =
    Returned <$> imap (λ k args, ((index + k)%nat, h args)) arg_list.
Proof.
  revert index. induction arg_list as [|args arg_list IH]; intros index Hh; [done|].
  simpl. f_equal.
  - unfold __threadify_index_handler. rewrite Hh by left. done.
  - specialize (IH (S index)). unfold compose.
    erewrite imap_ext; [erewrite IH|].
    + f_equal. apply imap_ext. intros k a _. simpl. f_equal. lia.
    + intros a Ha. apply Hh. by right.
    + intros k a _. simpl. f_equal. lia.
Qed.

Lemma tagged_indexes (h : Args → R) arg_list index :
  (imap (λ k args, ((index + k)%nat, h args)) arg_list).*1 =
    seq index (length arg_list).
Proof.
  revert index. induction arg_list as [|args arg_list IH]; intros index; [done|].
  rewrite imap_cons, fmap_cons. cbn [fst length seq]. rewrite Nat.add_0_r.
  f_equal. rewrite <-IH. f_equal.
  apply imap_ext. intros k a _. simpl. f_equal. lia.
Qed.

Lemma tagged_payloads (h : Args → R) arg_list index :
  (imap (λ k args, ((index + k)%nat, h args)) arg_list).*2 = h <$> arg_list.
Proof.
  revert index. induction arg_list as [|args arg_list IH]; intros index; [done|].
  rewrite imap_cons, !fmap_cons. cbn [snd]. f_equal.
  rewrite <-(IH (S index)). f_equal.
  apply imap_ext. intros k a _. simpl. f_equal. lia.
Qed.
End Submission.

(** *** The collection loop *)

Section Collection.
Context {R E : Type}.
Implicit Types (done_order : list (@Future R E)) (results : list (nat * R)).

Lemma collect_returned (rs : list (nat * R)) results log :
  collect (E:=E) (Returned <$> rs) results log =
    (Returned (results ++ rs), log ++ replicate (length rs) (Update 1%nat)).
Proof.
  revert results log. induction rs as [|r rs IH]; intros results log; csimpl.
  - by rewrite !app_nil_r.
  - rewrite IH, <-!app_assoc. done.
Qed.

(** A future that raises stops the loop: the loop hands out the exception
    of the first such future in completion order, and no list. *)
Lemma collect_raised done_order results log :
  (∃ e, Raised e ∈ done_order) →
  ∃ e log', collect done_order results log = (Raised e, log') ∧
            Raised e ∈ done_order.
Proof.
  revert results log.
  induction done_order as [|future done_order IH]; intros results log [e He].
  - by apply elem_of_nil in He.
  - destruct future as [r|e']; simpl.
    + apply elem_of_cons in He as [?|He]; [done|].
      destruct (IH (results ++ [r]) (log ++ [Update 1%nat])) as (e1 & log' & -> & ?);
        [by eauto|].
      exists e1, log'. split; [done|]. by right.
    + exists e', log. split; [done|]. by left.
Qed.

Lemma strip_indexes_spec (sorted_results : list (nat * R)) final_results :
  strip_indexes sorted_results final_results = final_results ++ sorted_results.*2.
Proof.
  revert final_results.
  induction sorted_results as [|r rs IH]; intros final_results; csimpl.
  - by rewrite app_nil_r.
  - by rewrite IH, <-app_assoc.
Qed.
End Collection.

(** *** Sorting by index *)

Section Sorting.
Context {R : Type}.
Implicit Types (a b : nat * R) (l : list (nat * R)).

Lemma insert_by_index_perm a l : insert_by_index a l ≡ₚ a :: l.
Proof.
  induction l as [|b l IH]; simpl; [done|].
  case_decide; [done|]. by rewrite IH, Permutation_swap.
Qed.

Lemma sorted_by_index_perm l : sorted_by_index l ≡ₚ l.
Proof.
  induction l as [|a l IH]; simpl; [done|].
  by rewrite insert_by_index_perm, IH.
Qed.

Lemma insert_by_index_sorted a l :
  StronglySorted index_le l → StronglySorted index_le (insert_by_index a l).
Proof.
  unfold index_le.
  induction 1 as [|b l Hl IH Hb]; simpl.
  - repeat constructor.
  - case_decide as Hab.
    + constructor; [by constructor|].
      constructor; [done|].
      eapply Forall_impl; [exact Hb|]. simpl. lia.
    + constructor; [done|].
      rewrite insert_by_index_perm. constructor; [lia|done].
Qed.

Lemma sorted_by_index_sorted l : StronglySorted index_le (sorted_by_index l).
Proof.
  induction l as [|a l IH]; simpl; [constructor|].
  by apply insert_by_index_sorted.
Qed.

Lemma seq_index_sorted l i n :
  l.*1 = seq i n → StronglySorted index_le l.
Proof.
  revert i n. induction l as [|a l IH]; intros i n Hl; [constructor|].
  destruct n as [|n]; [done|]. simpl in Hl. injection Hl as Ha Hl.
  constructor; [by eapply IH|].
  apply Forall_forall. intros b Hb. unfold index_le.
  assert (b.1 ∈ seq (S i) n) as Hin by (rewrite <-Hl; by apply list_elem_of_fmap_2).
  apply elem_of_seq in Hin. lia.
Qed.

Lemma same_index_same_result l a b :
  NoDup l.*1 → a ∈ l → b ∈ l → a.1 = b.1 → a = b.
Proof.
  induction l as [|c l IH]; csimpl; intros Hnd Ha Hb Hab.
  - by apply elem_of_nil in Ha.
  - apply NoDup_cons in Hnd as [Hc Hnd].
    apply elem_of_cons in Ha as [->|Ha]; apply elem_of_cons in Hb as [->|Hb].
    + done.
    + destruct Hc. rewrite Hab. by apply list_elem_of_fmap_2.
    + destruct Hc. rewrite <-Hab. by apply list_elem_of_fmap_2.
    + by apply IH.
Qed.

(** Results that carry each of the indexes [i, i+1, ...] once come out of
    the sort in that order, whatever order they went in. *)
Lemma sorted_by_index_seq l l0 i n :
  l ≡ₚ l0 → l0.*1 = seq i n → sorted_by_index l = l0.
Proof.
  intros Hperm Hseq.
  apply (StronglySorted_unique_strong index_le).
  - intros a b Ha Hb Hab Hba. unfold index_le in *.
    rewrite sorted_by_index_perm, Hperm in Ha.
    assert (NoDup l0.*1) as Hnd by (rewrite Hseq; apply NoDup_seq).
    apply (same_index_same_result l0); [done..|lia].
  - apply sorted_by_index_sorted.
  - by eapply seq_index_sorted.
  - by rewrite sorted_by_index_perm.
Qed.
End Sorting.

(** *** Whole runs *)

Lemma observed_from_updates count n rest :
  observed_from count (replicate n (Update 1%nat) ++ rest) =
    seq (S count) n ++ observed_from (count + n) rest.
Proof.
  revert count. induction n as [|n IH]; intros count; simpl.
  - by rewrite Nat.add_0_r.
  - rewrite IH, Nat.add_1_r. do 3 f_equal. lia.
Qed.

Lemma observed_run_log text n : observed (run_log text n) = seq 0 (S n).
Proof.
  unfold observed, run_log. cbn [app observed_from].
  rewrite observed_from_updates. simpl. by rewrite app_nil_r.
Qed.

Lemma completed_run_log text n : completed (run_log text n) = n.
Proof.
  unfold run_log. cbn [app completed].
  induction n as [|n IH]; simpl; [done|]. by rewrite IH.
Qed.

Section Runs.
Context {Args R E : Type}.
Implicit Types (handler : @Handler Args R E) (arg_list : list Args)
  (as_completed : list (@Future R E) → list (@Future R E)).

(** The futures of a returning handler, collected in any completion
    order, sorted and stripped, are the handler mapped over the tasks. *)
Lemma collect_sort_strip as_completed handler (h : Args → R) arg_list log :
  completion_order as_completed →
  (∀ args, args ∈ arg_list → handler args = Returned (h args)) →
  ∃ results,
    collect
      (as_completed (imap (λ k, __threadify_index_handler (0 + k) handler) arg_list))
      [] log
    = (Returned results, log ++ replicate (length arg_list) (Update 1%nat)) ∧
    strip_indexes (sorted_by_index results) [] = h <$> arg_list.
Proof.
  intros Hperm Hh.
  rewrite (submitted_returned handler h) by done.
  set (tagged := imap (λ k args, ((0 + k)%nat, h args)) arg_list).
  pose proof (Hperm (Returned <$> tagged)) as Hdone.
  remember (as_completed (Returned <$> tagged)) as done_order eqn:Heq.
  clear Heq. apply Permutation_map_inv in Hdone as (rs & -> & Hrs).
  exists rs. split.
  - change (map Returned rs) with (Returned (E:=E) <$> rs).
    rewrite collect_returned. do 3 f_equal.
    rewrite <-Hrs. unfold tagged. by rewrite length_imap.
  - rewrite strip_indexes_spec. simpl.
    rewrite (sorted_by_index_seq rs tagged 0 (length arg_list)).
    + apply tagged_payloads.
    + done.
    + apply tagged_indexes.
Qed.

Lemma threadify_returns as_completed handler (h : Args → R) arg_list max_threads text :
  completion_order as_completed →
  0 < max_threads →
  (∀ args, args ∈ arg_list → handler args = Returned (h args)) →
  threadify as_completed arg_list handler max_threads text =
    (Returned (h <$> arg_list), run_log text (length arg_list)).
Proof.
  intros Hperm Hpos Hh. unfold threadify.
  rewrite decide_False by lia. rewrite submit_all_spec. cbn [app].
  destruct (collect_sort_strip as_completed handler h arg_list
              [ProgressStart; AddTask text (0 + length arg_list)] Hperm Hh)
    as (results & -> & ->).
  unfold run_log. by rewrite <-app_assoc.
Qed.

Lemma submit_processes_spec (shipped : nat → @Handler Args R E → Args → @Future R E)
    handler arg_list index processes :
  submit_processes shipped handler arg_list index processes =
    (processes ++ imap (λ k, shipped (index + k)%nat handler) arg_list,
     (index + length arg_list)%nat).
Proof.
  revert index processes.
  induction arg_list as [|args arg_list IH]; intros index processes; simpl.
  - by rewrite app_nil_r, Nat.add_0_r.
  - rewrite IH, <-app_assoc. simpl. rewrite Nat.add_0_r.
    f_equal; [|lia]. do 2 f_equal.
    apply imap_ext. intros k a _. simpl. f_equal. lia.
Qed.

(** The futures of the process pool when every call crosses the process
    boundary unchanged. *)
Lemma shipped_unchanged (shipped : nat → @Handler Args R E → Args → @Future R E)
    handler arg_list :
  (∀ k args, arg_list !! k = Some args →
     shipped k handler args = __threadify_index_handler k handler args) →
  imap (λ k, shipped (0 + k)%nat handler) arg_list =
    imap (λ k, __threadify_index_handler (0 + k) handler) arg_list.
Proof. intros Hsame. apply imap_ext. intros k args Hk. by apply Hsame. Qed.

Lemma multiprocess_returns (shipped : nat → @Handler Args R E → Args → @Future R E)
    pool_limit as_completed handler (h : Args → R) arg_list max_workers text :
  completion_order as_completed →
  0 < max_workers ≤ pool_limit →
  (∀ k args, arg_list !! k = Some args →
     shipped k handler args = __threadify_index_handler k handler args) →
  (∀ args, args ∈ arg_list → handler args = Returned (h args)) →
  multiprocess shipped pool_limit as_completed arg_list handler max_workers text =
    (Returned (h <$> arg_list), run_log text (length arg_list)).
Proof.
  intros Hperm Hpos Hsame Hh. unfold multiprocess.
  rewrite !decide_False by lia. rewrite submit_processes_spec. cbn [app].
  rewrite shipped_unchanged by done.
  destruct (collect_sort_strip as_completed handler h arg_list
              [ProgressStart; AddTask text (0 + length arg_list)] Hperm Hh)
    as (results & -> & ->).
  unfold run_log. by rewrite <-app_assoc.
Qed.

(** A handler that raises on a task leaves a raising future among the
    submitted ones. *)
Lemma submitted_raises handler arg_list index args e :
  args ∈ arg_list → handler args = Raised e →
  Raised e ∈ imap (λ k, __threadify_index_handler (index + k) handler) arg_list.
Proof.
  intros Hin Hraise. apply list_elem_of_lookup in Hin as [k Hk].
  apply list_elem_of_lookup. exists k.
  rewrite list_lookup_imap, Hk. simpl.
  unfold __threadify_index_handler. by rewrite Hraise.
Qed.

(** A raising future comes from a task on which the handler raises. *)
Lemma raised_submitted handler arg_list index e :
  Raised e ∈ imap (λ k, __threadify_index_handler (index + k) handler) arg_list →
  ∃ args, args ∈ arg_list ∧ handler args = Raised e.
Proof.
  intros Hin. apply list_elem_of_lookup in Hin as [k Hk].
  rewrite list_lookup_imap in Hk.
  destruct (arg_list !! k) as [args|] eqn:Hargs; [|done].
  exists args. split; [by eapply list_elem_of_lookup_2|].
  simpl in Hk. unfold __threadify_index_handler in Hk.
  destruct (handler args); congruence.
Qed.
End Runs.

End ParallelismFacts.

(** * Properties of the fetch pipeline *)

Module DownloaderFacts.
Import Downloader.

Lemma logged_nil w : logged w [] = w.
Proof. destruct w. unfold logged. simpl. by rewrite app_nil_r. Qed.

Lemma logged_logged w reqs1 reqs2 :
  logged (logged w reqs1) reqs2 = logged w (reqs1 ++ reqs2).
Proof. unfold logged. simpl. by rewrite app_assoc. Qed.

(** *** The HTTP helper and the paginated query *)

Section Queries.
Variable remote : string → gmap string Z → outcome exn Response.
Variable json_loads : string → option page.

Lemma requests_get_spec url params w :
  requests_get remote url params w = (remote url params, logged w [(url, params)]).
Proof. done. Qed.

Lemma minka_get_serves endpoint params p w :
  serves remote json_loads ("https://minka-sdg.org:4000/v1/" +:+ endpoint) params p →
  minka_get remote json_loads endpoint params w =
    (Returned p, logged w [("https://minka-sdg.org:4000/v1/" +:+ endpoint, params)]).
Proof.
  intros (r & Hr & Hstatus & Hjson). unfold minka_get, bind.
  rewrite requests_get_spec, Hr.
  rewrite decide_False by lia. by rewrite Hjson.
Qed.

(** The loop over the remaining pages, when each of them is served. *)
Lemma pages_loop_serves endpoint npages (pages : Z → page) (n : nat) :
  ∀ i params results w,
    n = Z.to_nat (npages - i) →
    (∀ k, i < k ≤ npages →
       serves remote json_loads ("https://minka-sdg.org:4000/v1/" +:+ endpoint)
         (<["page" := k]> params) (pages k)) →
    pages_loop remote json_loads endpoint npages i params results w =
      (Returned (results ++
                 concat ((λ k, Downloader.results (pages k)) <$> seqZ (i + 1) (npages - i))),
       logged w ((λ k, ("https://minka-sdg.org:4000/v1/" +:+ endpoint,
                        <["page" := k]> params)) <$> seqZ (i + 1) (npages - i))).
Proof.
  induction n as [|n IH]; intros i params results w Hn Hserved;
    rewrite pages_loop_equation_1; destruct (decide (i < npages)) as [Hlt|Hge];
    try lia; simpl.
  - rewrite seqZ_nil by lia. simpl. by rewrite app_nil_r, logged_nil.
  - unfold bind. rewrite (minka_get_serves endpoint _ (pages (i + 1))) by (apply Hserved; lia).
    rewrite (IH (i + 1)); [| lia |].
    + rewrite (seqZ_cons (i + 1) (npages - i)) by lia.
      replace (Z.pred (npages - i)) with (npages - (i + 1)) by lia.
      replace (Z.succ (i + 1)) with (i + 1 + 1) by lia.
      rewrite logged_logged. csimpl. rewrite <-app_assoc. do 2 f_equal.
      f_equal. apply list_fmap_ext. intros _ k _. by rewrite insert_insert_eq.
    + intros k Hk. rewrite insert_insert_eq. apply Hserved. lia.
Qed.
(** The whole paginated query, when every page it asks for is served:
    one request per page, then the check of the count against the total
    of the first page. *)
Lemma minka_get_pagination_serves endpoint params per_page (pages : Z → page) w :
  let url := "https://minka-sdg.org:4000/v1/" +:+ endpoint in
  let first := <["per_page" := per_page]> params in
  let total := total_results (pages 1) in
  let npages := ceil_div total per_page in
  let accumulated :=
    Downloader.results (pages 1) ++
    concat ((λ k, Downloader.results (pages k)) <$> seqZ 2 (npages - 1)) in
  per_page ≠ 0 →
  serves remote json_loads url first (pages 1) →
  (∀ k, 1 < k ≤ npages →
     serves remote json_loads url (<["page" := k]> first) (pages k)) →
  minka_get_pagination remote json_loads endpoint params per_page w =
    (if decide (Z.of_nat (length accumulated) ≠ total)
     then Raised (ValueError "Expected and returned lengths do not match")
     else Returned accumulated,
     logged w ((url, first) ::
               ((λ k, (url, <["page" := k]> first)) <$> seqZ 2 (npages - 1)))).
Proof.
  intros url first total npages accumulated Hper Hfirst Hrest.
  unfold minka_get_pagination, bind.
  rewrite (minka_get_serves endpoint _ (pages 1)) by done.
  rewrite decide_False by done.
  rewrite (pages_loop_serves endpoint _ pages (Z.to_nat (npages - 1)) 1);
    [|done|done].
  change (1 + 1) with 2. fold total npages first url accumulated.
  rewrite logged_logged. simpl.
  by destruct (decide (Z.of_nat (length accumulated) ≠ total)).
Qed.
End Queries.

(** *** The download handler *)

Section Download.
Variable remote : string → gmap string Z → outcome exn Response.

Lemma formats_loop_cons pic_id format rest last w :
  formats_loop remote pic_id (format :: rest) last w =
    match remote (picture_url pic_id format) ∅ with
    | Returned r =>
        if decide (status_code r < 300)
        then (Returned (true, Some (picture_url pic_id format, r)),
              logged w [(picture_url pic_id format, ∅)])
        else formats_loop remote pic_id rest (Some (picture_url pic_id format, r))
               (logged w [(picture_url pic_id format, ∅)])
    | Raised e => (Raised e, logged w [(picture_url pic_id format, ∅)])
    end.
Proof.
  simpl. unfold bind. rewrite requests_get_spec.
  destruct (remote (picture_url pic_id format) ∅) as [r|e]; [|done].
  by destruct (decide (status_code r < 300)).
Qed.


(** The loop over a non-empty list of formats starts with a request for
    the first of them. *)
Lemma formats_loop_requests pic_id format rest last w :
  ∃ more, requests (formats_loop remote pic_id (format :: rest) last w).2 =
            requests w ++ (picture_url pic_id format, ∅) :: more.
Proof.
  revert format last w. induction rest as [|format' rest IH]; intros format last w;
    rewrite formats_loop_cons;
    (destruct (remote (picture_url pic_id format) ∅) as [r|e]; [|by exists []]);
    (destruct (decide (status_code r < 300)); [by exists []|]).
  - by exists [].
  - destruct (IH format' (Some (picture_url pic_id format, r))
                (logged w [(picture_url pic_id format, ∅)])) as [more Hmore].
    exists ((picture_url pic_id format', ∅) :: more).
    rewrite Hmore. simpl. by rewrite <-app_assoc.
Qed.
(** The three attempts of [download_picture], written out; a successful
    attempt is followed by the write of the destination. *)
Lemma download_picture_unfold
    (disk : string → list Byte.byte → write_outcome) pic_id output w :
  let url_jpeg := picture_url pic_id "jpeg" in
  let url_jpg := picture_url pic_id "jpg" in
  let url_png := picture_url pic_id "png" in
  let saved url r reqs :=
    match disk output (content r) with
    | Written =>
        (Returned (true, url),
         {| requests := requests w ++ reqs;
            files := <[output := content r]> (files w) |})
    | OpenFailed e => (Raised e, logged w reqs)
    | WriteFailed e kept =>
        (Raised e,
         {| requests := requests w ++ reqs; files := <[output := kept]> (files w) |})
    end in
  download_picture remote disk pic_id output w =
    match remote url_jpeg ∅ with
    | Raised e => (Raised e, logged w [(url_jpeg, ∅)])
    | Returned r1 =>
        if decide (status_code r1 < 300)
        then saved url_jpeg r1 [(url_jpeg, ∅)]
        else
          match remote url_jpg ∅ with
          | Raised e => (Raised e, logged w [(url_jpeg, ∅); (url_jpg, ∅)])
          | Returned r2 =>
              if decide (status_code r2 < 300)
              then saved url_jpg r2 [(url_jpeg, ∅); (url_jpg, ∅)]
              else
                match remote url_png ∅ with
                | Raised e =>
                    (Raised e, logged w [(url_jpeg, ∅); (url_jpg, ∅); (url_png, ∅)])
                | Returned r3 =>
                    if decide (status_code r3 < 300)
                    then saved url_png r3 [(url_jpeg, ∅); (url_jpg, ∅); (url_png, ∅)]
                    else (Returned (false, url_png),
                          logged w [(url_jpeg, ∅); (url_jpg, ∅); (url_png, ∅)])
                end
          end
    end.
Proof.
  intros url_jpeg url_jpg url_png saved.
  unfold download_picture, formats, bind.
  rewrite formats_loop_cons. fold url_jpeg.
  destruct (remote url_jpeg ∅) as [r1|e1]; [|done].
  destruct (decide (status_code r1 < 300)).
  { unfold saved, open_write. simpl. by destruct (disk output (content r1)). }
  rewrite formats_loop_cons, logged_logged. fold url_jpg.
  destruct (remote url_jpg ∅) as [r2|e2]; [|done].
  destruct (decide (status_code r2 < 300)).
  { unfold saved, open_write. simpl. by destruct (disk output (content r2)). }
  rewrite formats_loop_cons, logged_logged. fold url_png.
  destruct (remote url_png ∅) as [r3|e3]; [|done].
  destruct (decide (status_code r3 < 300)); [|done].
  unfold saved, open_write. simpl. by destruct (disk output (content r3)).
Qed.
End Download.

(** *** Unique picture ids and their licenses *)

Lemma elem_of_concat {A} (x : A) (ls : list (list A)) :
  x ∈ concat ls ↔ ∃ l, x ∈ l ∧ l ∈ ls.
Proof.
  induction ls as [|l0 ls IH]; simpl.
  - split; [intros H; by apply elem_of_nil in H|].
    intros (l & _ & H). by apply elem_of_nil in H.
  - rewrite elem_of_app, IH. split.
    + intros [H|(l & H & Hl)]; [exists l0|exists l]; (split; [done|]);
        [by left|by right].
    + intros (l & H & Hl). apply elem_of_cons in Hl as [->|Hl]; [by left|].
      right. by exists l.
Qed.

Lemma elem_of_insert_unique x y l : y ∈ insert_unique x l ↔ y = x ∨ y ∈ l.
Proof.
  induction l as [|z l IH]; simpl.
  - rewrite elem_of_cons. done.
  - destruct (decide (x < z)); [by rewrite elem_of_cons|].
    destruct (decide (x = z)) as [->|].
    + rewrite !elem_of_cons. tauto.
    + rewrite !elem_of_cons, IH. tauto.
Qed.

Lemma insert_unique_sorted x l :
  StronglySorted Z.lt l → StronglySorted Z.lt (insert_unique x l).
Proof.
  induction 1 as [|z l Hl IH Hz]; simpl.
  - repeat constructor.
  - destruct (decide (x < z)).
    + constructor; [by constructor|].
      constructor; [done|]. eapply Forall_impl; [exact Hz|]. simpl. lia.
    + destruct (decide (x = z)); [by constructor|].
      constructor; [done|].
      apply Forall_forall. intros y Hy.
      apply elem_of_insert_unique in Hy as [->|Hy]; [lia|].
      by eapply Forall_forall in Hz.
Qed.

Lemma elem_of_sorted_unique y l : y ∈ sorted_unique l ↔ y ∈ l.
Proof.
  induction l as [|x l IH]; simpl; [done|].
  by rewrite elem_of_insert_unique, elem_of_cons, IH.
Qed.

Lemma sorted_unique_sorted l : StronglySorted Z.lt (sorted_unique l).
Proof.
  induction l as [|x l IH]; simpl; [constructor|]. by apply insert_unique_sorted.
Qed.

Lemma elem_of_np_unique y l : y ∈ np_unique l ↔ y ∈ np_array l.
Proof. apply elem_of_sorted_unique. Qed.

Lemma np_unique_sorted l : StronglySorted Z.lt (np_unique l).
Proof. apply sorted_unique_sorted. Qed.

(** Integers that all fit 64 signed bits are kept as they are. *)
Lemma np_array_int64 l :
  (∀ n, n ∈ l → - 2 ^ 63 ≤ n < 2 ^ 63) → np_array l = l.
Proof.
  intros Hfit. unfold np_array. case_decide as Hfloat; [|done].
  destruct l as [|n l]; [done|]. exfalso. revert Hfloat.
  unfold np_dtype.
  assert (existsb (λ n, negb (fits_int64 n) && negb (fits_uint64 n)) (n :: l) = false)
    as ->.
  { apply not_true_is_false. intros (m & Hm & Hbad)%existsb_exists.
    apply list_elem_of_In, Hfit in Hm. unfold fits_int64 in Hbad.
    rewrite bool_decide_eq_true_2 in Hbad by done. done. }
  assert (existsb fits_uint64 (n :: l) = false) as ->; [|done].
  apply not_true_is_false. intros (m & Hm & Hbad)%existsb_exists.
  apply list_elem_of_In, Hfit in Hm. unfold fits_uint64 in Hbad.
  apply bool_decide_eq_true_1 in Hbad. lia.
Qed.

Lemma existsb_same_elements (f : Z → bool) (l1 l2 : list Z) :
  (∀ x, x ∈ l1 ↔ x ∈ l2) → existsb f l1 = existsb f l2.
Proof.
  intros Hsame. apply eq_true_iff_eq. rewrite !existsb_exists.
  split; intros (x & Hx & Hf); exists x; (split; [|done]);
    apply list_elem_of_In; apply list_elem_of_In in Hx; by apply Hsame.
Qed.

(** The element type of the array, and with it its elements, depend on
    the set of the values only. *)
Lemma np_dtype_same_elements (l1 l2 : list Z) :
  (∀ x, x ∈ l1 ↔ x ∈ l2) → np_dtype l1 = np_dtype l2.
Proof.
  intros Hsame. destruct l1 as [|x1 l1], l2 as [|x2 l2].
  - done.
  - assert (x2 ∈ @nil Z) as H by (apply Hsame; by left). by apply elem_of_nil in H.
  - assert (x1 ∈ @nil Z) as H by (apply Hsame; by left). by apply elem_of_nil in H.
  - unfold np_dtype.
    by rewrite !(existsb_same_elements _ (x1 :: l1) (x2 :: l2) Hsame).
Qed.

Lemma np_array_same_elements (l1 l2 : list Z) :
  (∀ x, x ∈ l1 ↔ x ∈ l2) → ∀ y, y ∈ np_array l1 ↔ y ∈ np_array l2.
Proof.
  intros Hsame y. unfold np_array.
  rewrite (np_dtype_same_elements l1 l2 Hsame).
  case_decide; [|done].
  rewrite !list_elem_of_fmap. split; intros (x & -> & Hx); exists x;
    (split; [done|]); by apply Hsame.
Qed.

Lemma strictly_sorted_NoDup (l : list Z) : StronglySorted Z.lt l → NoDup l.
Proof.
  induction 1 as [|x l Hl IH Hx]; constructor; [|done].
  intros Hin. eapply Forall_forall in Hx; [|done]. lia.
Qed.

Lemma photos_loop_ids license photos pic_ids licenses :
  (photos_loop license photos pic_ids licenses).1 = pic_ids ++ (photo_id <$> photos).
Proof.
  revert pic_ids licenses. induction photos as [|p photos IH]; intros; csimpl.
  - by rewrite app_nil_r.
  - by rewrite IH, <-app_assoc.
Qed.

Lemma license_text_stored license (p : Z) (licenses : gmap Z string) :
  match license with
  | Some s => if truthy license then <[p := s]> licenses
              else <[p := "unknown"]> licenses
  | None => <[p := "unknown"]> licenses
  end = <[p := license_text license]> licenses.
Proof.
  destruct license as [s|]; [|done]. unfold license_text. simpl.
  destruct (decide (s = "")) as [->|Hs].
  - done.
  - by rewrite bool_decide_eq_true_2.
Qed.

Lemma photos_loop_lookup license photos pic_ids licenses (p : Z) :
  (photos_loop license photos pic_ids licenses).2 !! p =
    if decide (p ∈ photo_id <$> photos) then Some (license_text license)
    else licenses !! p.
Proof.
  revert pic_ids licenses.
  induction photos as [|ph photos IH]; intros; cbn [photos_loop snd].
  - rewrite decide_False; [done|]. rewrite fmap_nil. apply not_elem_of_nil.
  - rewrite license_text_stored, IH, fmap_cons.
    destruct (decide (p ∈ photo_id <$> photos)) as [Hin|Hout].
    + rewrite decide_True; [done|]. by right.
    + destruct (decide (p = photo_id ph)) as [->|Hne].
      * rewrite decide_True by left. by rewrite lookup_insert_eq.
      * rewrite decide_False.
        -- by rewrite lookup_insert_ne.
        -- rewrite elem_of_cons. tauto.
Qed.

Lemma results_loop_app results1 results2 pic_ids licenses :
  results_loop (results1 ++ results2) pic_ids licenses =
    results_loop results2 (results_loop results1 pic_ids licenses).1
      (results_loop results1 pic_ids licenses).2.
Proof.
  revert pic_ids licenses. induction results1 as [|r results1 IH]; intros; simpl.
  - done.
  - destruct (photos_loop _ _ _ _) as [pic_ids' licenses']. apply IH.
Qed.

Lemma results_loop_ids results pic_ids licenses :
  (results_loop results pic_ids licenses).1 =
    pic_ids ++ concat (photo_ids <$> results).
Proof.
  revert pic_ids licenses. induction results as [|r results IH]; intros; csimpl.
  - by rewrite app_nil_r.
  - pose proof (photos_loop_ids (license_code r) (photos r) pic_ids licenses) as Hids.
    destruct (photos_loop _ _ _ _) as [pic_ids' licenses']. simpl in Hids.
    rewrite IH, Hids, <-app_assoc. done.
Qed.

(** Observations without the picture leave its entry alone. *)
Lemma results_loop_lookup_other results pic_ids licenses (p : Z) :
  (∀ o, o ∈ results → p ∉ photo_ids o) →
  (results_loop results pic_ids licenses).2 !! p = licenses !! p.
Proof.
  revert pic_ids licenses. induction results as [|r results IH]; intros ?? Hout; simpl.
  - done.
  - pose proof (photos_loop_lookup (license_code r) (photos r) pic_ids licenses p) as Hp.
    destruct (photos_loop _ _ _ _) as [pic_ids' licenses']. simpl in Hp.
    rewrite IH by (intros o Ho; apply Hout; by right).
    rewrite Hp, decide_False; [done|]. apply (Hout r). by left.
Qed.

(** The last observation with the picture decides its license. *)
Lemma results_loop_lookup_last before o after pic_ids licenses (p : Z) :
  p ∈ photo_ids o →
  (∀ o', o' ∈ after → p ∉ photo_ids o') →
  (results_loop (before ++ o :: after) pic_ids licenses).2 !! p =
    Some (license_text (license_code o)).
Proof.
  intros Hin Hout. rewrite results_loop_app. simpl.
  set (ids1 := (results_loop before pic_ids licenses).1).
  set (lic1 := (results_loop before pic_ids licenses).2).
  pose proof (photos_loop_lookup (license_code o) (photos o) ids1 lic1 p) as Hp.
  destruct (photos_loop _ _ _ _) as [pic_ids' licenses']. simpl in Hp.
  rewrite results_loop_lookup_other by done.
  rewrite Hp, decide_True; done.
Qed.

(** Among the observations that contain a picture there is a last one. *)
Lemma last_containing (p : Z) (obs : list observation) :
  (∃ o, o ∈ obs ∧ p ∈ photo_ids o) →
  ∃ before o' after,
    obs = before ++ o' :: after ∧ p ∈ photo_ids o' ∧
    ∀ o'', o'' ∈ after → p ∉ photo_ids o''.
Proof.
  induction obs as [|o1 rest IH]; intros (o & Ho & Hp);
    [by apply elem_of_nil in Ho|].
  destruct (decide (Exists (λ o2, p ∈ photo_ids o2) rest)) as [Hex|Hnone].
  - apply Exists_exists in Hex as (o2 & Ho2 & Hp2).
    destruct IH as (before & o' & after & -> & ? & ?); [by eauto|].
    by exists (o1 :: before), o', after.
  - apply elem_of_cons in Ho as [->|Ho].
    + exists [], o1, rest. split; [done|]. split; [done|].
      intros o'' Ho'' Hp''. apply Hnone, Exists_exists. eauto.
    + destruct Hnone. apply Exists_exists. eauto.
Qed.

Lemma license_text_nonempty license : license_text license ≠ "".
Proof.
  destruct license as [s|]; simpl; [|done].
  by destruct (decide (s = "")).
Qed.

End DownloaderFacts.

(** * The properties of the specification: the task executor *)

Import Parallelism ParallelismFacts.

(** C1 (order preservation).  For every list of argument tuples, every
    handler that returns on each of them, every worker count of at least one
    and every order in which the pool completes the futures, [threadify]
    returns the handler's results in the order of the inputs:
    [[handler(tasks[0]), ..., handler(tasks[N-1])]].  Equally, whatever
    permutation of the index-tagged results the completion order produces,
    sorting it by index and projecting the payload gives that list. *)
Theorem threadify_order_preservation {Args R E}
    (as_completed : list (@Future R E) → list (@Future R E))
    (handler : @Handler Args R E) (h : Args → R)
    (arg_list : list Args) (max_threads : Z) (text : string) :
  completion_order as_completed →
  0 < max_threads →
  (∀ args, args ∈ arg_list → handler args = Returned (h args)) →
  (threadify as_completed arg_list handler max_threads text).1
    = Returned (h <$> arg_list) ∧
  ∀ results : list (nat * R),
    results ≡ₚ imap (λ k args, (k, h args)) arg_list →
    strip_indexes (sorted_by_index results) [] = h <$> arg_list.
Proof.
  intros Hperm Hpos Hh. split.
  - by rewrite (threadify_returns as_completed handler h).
  - intros results Hres. rewrite strip_indexes_spec. simpl.
    change (results ≡ₚ imap (λ k args, ((0 + k)%nat, h args)) arg_list) in Hres.
    rewrite (sorted_by_index_seq results _ 0 (length arg_list) Hres).
    + apply tagged_payloads.
    + apply tagged_indexes.
Qed.

(** The scenario of the specification: three tasks on two workers, the
    futures completing in reverse order. *)
Lemma threadify_order_preservation_witness :
  (threadify (E:=Empty_set) reverse ["a"; "b"; "c"] (λ s : string, Returned s)
     2 "progress...").1 = Returned ["a"; "b"; "c"].
Proof.
  refine (proj1 (threadify_order_preservation (E:=Empty_set) reverse
                   (λ s : string, Returned s) (λ s, s) ["a"; "b"; "c"] 2
                   "progress..." _ _ _)).
  - intros fs. apply reverse_Permutation.
  - lia.
  - intros args _. reflexivity.
Defined.

(** C2, as the specification words it, fails on an empty task list: the
    call returns the empty list, but only after it has started the progress
    reporter, created a bar of total 0 and stopped the reporter again. *)
Lemma threadify_empty_starts_progress :
  let run := threadify (Args:=unit) (R:=unit) (E:=Empty_set)
               (λ fs, fs) [] (λ _, Returned ()) 10 "progress..." in
  run.1 = Returned [] ∧
  run.2 = [ProgressStart; AddTask "progress..." 0; ProgressStop] ∧
  ProgressStart ∈ run.2.
Proof.
  vm_compute. split; [done|]. split; [done|]. by left.
Qed.

(** C2 (completeness), amended.  For every list of N >= 0 argument tuples,
    every handler that returns on each of them, every worker count of at
    least one and every completion order, [threadify] returns a list of
    exactly N results.  On the empty list it returns the empty list, and the
    progress reporter is started, given a bar of total 0, and stopped. *)
Theorem threadify_completeness {Args R E}
    (as_completed : list (@Future R E) → list (@Future R E))
    (handler : @Handler Args R E) (h : Args → R)
    (arg_list : list Args) (max_threads : Z) (text : string) :
  completion_order as_completed →
  0 < max_threads →
  (∀ args, args ∈ arg_list → handler args = Returned (h args)) →
  (∃ final_results,
     (threadify as_completed arg_list handler max_threads text).1
       = Returned final_results ∧
     length final_results = length arg_list) ∧
  threadify as_completed [] handler max_threads text
    = (Returned [], [ProgressStart; AddTask text 0; ProgressStop]).
Proof.
  intros Hperm Hpos Hh. split.
  - exists (h <$> arg_list). split; [|by rewrite length_fmap].
    by rewrite (threadify_returns as_completed handler h).
  - rewrite (threadify_returns as_completed handler h [] max_threads text Hperm Hpos);
      [done|].
    intros args Hin. by apply elem_of_nil in Hin.
Qed.

Lemma threadify_completeness_witness :
  (∃ final_results,
     (threadify (E:=Empty_set) reverse [1; 2; 3; 4] (λ n : Z, Returned (n * n))
        5 "squares").1 = Returned final_results ∧
     length final_results = 4%nat) ∧
  threadify (E:=Empty_set) reverse [] (λ n : Z, Returned (n * n)) 5 "squares"
    = (Returned [], [ProgressStart; AddTask "squares" 0; ProgressStop]).
Proof.
  refine (threadify_completeness (E:=Empty_set) reverse
            (λ n : Z, Returned (n * n)) (λ n, n * n) [1; 2; 3; 4] 5 "squares" _ _ _).
  - intros fs. apply reverse_Permutation.
  - lia.
  - intros args _. reflexivity.
Defined.

(** C3 (fail-fast).  If the handler raises on some task, [threadify] (with
    a worker count of at least one, under every completion order) does not
    return a list, partial or not: it raises, and what it raises is an
    exception the handler raised on one of the tasks. *)
Theorem threadify_fail_fast {Args R E}
    (as_completed : list (@Future R E) → list (@Future R E))
    (handler : @Handler Args R E)
    (arg_list : list Args) (max_threads : Z) (text : string) :
  completion_order as_completed →
  0 < max_threads →
  (∃ args e, args ∈ arg_list ∧ handler args = Raised e) →
  ∃ e, (threadify as_completed arg_list handler max_threads text).1
         = Raised (HandlerError e) ∧
       ∃ args, args ∈ arg_list ∧ handler args = Raised e.
Proof.
  intros Hperm Hpos (args & e & Hin & Hraise). unfold threadify.
  rewrite decide_False by lia. rewrite submit_all_spec. cbn [app].
  set (threads := imap _ arg_list).
  destruct (collect_raised (as_completed threads) []
              [ProgressStart; AddTask text (0 + length arg_list)])
    as (e1 & log' & -> & He1).
  - exists e. rewrite (Hperm threads). by apply (submitted_raises _ _ _ args).
  - exists e1. split; [done|].
    rewrite (Hperm threads) in He1. by eapply raised_submitted.
Qed.

(** The scenario of the specification: the handler raises on input 2. *)
Lemma threadify_fail_fast_witness :
  ∃ e, (threadify reverse [1; 2; 3]
          (λ n : Z, if decide (n = 2) then Raised "boom" else Returned n)
          10 "progress...").1 = Raised (HandlerError e) ∧
       ∃ args, args ∈ [1; 2; 3] ∧
         (if decide (args = 2) then Raised "boom" else Returned args)
           = Raised (E:=string) (A:=Z) e.
Proof.
  refine (threadify_fail_fast reverse
            (λ n : Z, if decide (n = 2) then Raised "boom" else Returned n)
            [1; 2; 3] 10 "progress..." _ _ _).
  - intros fs. apply reverse_Permutation.
  - lia.
  - exists 2, "boom". split; [|reflexivity]. right. left.
Defined.

(** C4 (progress monotonicity).  In a run of [threadify] over N tasks on
    which the handler returns (worker count at least one, any completion
    order), the bar is created with total N and the counter an observer
    reads is 0, 1, ..., N: it advances by exactly one at every completion,
    never decreases, stays between 0 and the total, and is N at the end. *)
Theorem threadify_progress_monotone {Args R E}
    (as_completed : list (@Future R E) → list (@Future R E))
    (handler : @Handler Args R E) (h : Args → R)
    (arg_list : list Args) (max_threads : Z) (text : string) :
  completion_order as_completed →
  0 < max_threads →
  (∀ args, args ∈ arg_list → handler args = Returned (h args)) →
  let log := (threadify as_completed arg_list handler max_threads text).2 in
  let N := length arg_list in
  bar_total log = Some N ∧
  observed log = seq 0 (S N) ∧
  (∀ i c c', observed log !! i = Some c → observed log !! S i = Some c' →
             c' = S c) ∧
  (∀ i j c c', (i ≤ j)%nat → observed log !! i = Some c →
               observed log !! j = Some c' → (c ≤ c')%nat) ∧
  (∀ c, c ∈ observed log → (0 ≤ c ≤ N)%nat) ∧
  last (observed log) = Some N ∧
  completed log = N.
Proof.
  intros Hperm Hpos Hh log N. subst log N.
  rewrite (threadify_returns as_completed handler h) by done.
  cbn [snd]. rewrite observed_run_log, completed_run_log.
  set (N := length arg_list).
  split; [done|]. split; [done|]. split; [|split; [|split; [|split; [|done]]]].
  - intros i c c' Hc Hc'.
    apply lookup_seq in Hc as [-> _]. apply lookup_seq in Hc' as [-> _]. lia.
  - intros i j c c' Hij Hc Hc'.
    apply lookup_seq in Hc as [-> _]. apply lookup_seq in Hc' as [-> _]. lia.
  - intros c Hc. apply elem_of_seq in Hc. lia.
  - by rewrite seq_S, last_snoc.
Qed.

Lemma threadify_progress_monotone_witness :
  let log := (threadify (E:=Empty_set) reverse ["a"; "b"; "c"]
                (λ s : string, Returned s) 2 "progress...").2 in
  bar_total log = Some 3%nat ∧ observed log = [0; 1; 2; 3]%nat.
Proof.
  pose proof (threadify_progress_monotone (E:=Empty_set) reverse
                (λ s : string, Returned s) (λ s, s) ["a"; "b"; "c"] 2
                "progress...") as H.
  simpl in H. destruct H as (Htotal & Hobs & _).
  - intros fs. apply reverse_Permutation.
  - lia.
  - intros args _. reflexivity.
  - split; [exact Htotal|exact Hobs].
Defined.

(** C5, as the specification words it, fails on a worker count that the
    thread pool accepts and the process pool does not: with 2^31 - 1
    workers, where the process pool is built for 2^31 - 2 at most,
    [threadify] returns the results and [multiprocess] raises before it
    starts the progress reporter. *)
Lemma multiprocess_rejects_worker_count :
  let run_threads :=
    threadify (E:=Empty_set) (λ fs, fs) ["a"; "b"; "c"] (λ s : string, Returned s)
      (2 ^ 31 - 1) "progress..." in
  let run_processes :=
    multiprocess (E:=Empty_set) __threadify_index_handler (2 ^ 31 - 2) (λ fs, fs)
      ["a"; "b"; "c"] (λ s : string, Returned s) (2 ^ 31 - 1) "progress..." in
  run_threads.1 = Returned ["a"; "b"; "c"] ∧
  run_processes = (Raised PoolLimitError, []) ∧
  run_threads.1 ≠ run_processes.1.
Proof.
  vm_compute. split; [done|]. split; [done|]. intros H; discriminate H.
Qed.

(** C5 (strategy equivalence), amended.  Given the same argument list, the
    same handler returning on every task and the same worker count, at
    least one and no more than the process pool is built for, [threadify]
    and [multiprocess] return the same list whatever the completion order
    of each pool, provided every submitted call crosses the process
    boundary unchanged (handler, arguments and result pickle): the handler
    mapped over the inputs, in input order and of the same length.  They
    also make the same calls on the progress bar. *)
Theorem threadify_multiprocess_equivalent {Args R E}
    (shipped : nat → @Handler Args R E → Args → @Future R E) (pool_limit : Z)
    (thread_order process_order : list (@Future R E) → list (@Future R E))
    (handler : @Handler Args R E) (h : Args → R)
    (arg_list : list Args) (workers : Z) (text : string) :
  completion_order thread_order →
  completion_order process_order →
  0 < workers ≤ pool_limit →
  (∀ k args, arg_list !! k = Some args →
     shipped k handler args = __threadify_index_handler k handler args) →
  (∀ args, args ∈ arg_list → handler args = Returned (h args)) →
  threadify thread_order arg_list handler workers text
    = multiprocess shipped pool_limit process_order arg_list handler workers text ∧
  (multiprocess shipped pool_limit process_order arg_list handler workers text).1
    = Returned (h <$> arg_list) ∧
  length (h <$> arg_list) = length arg_list.
Proof.
  intros Hthread Hprocess Hworkers Hshipped Hh.
  rewrite (threadify_returns thread_order handler h) by (done || lia).
  rewrite (multiprocess_returns shipped pool_limit process_order handler h) by done.
  by rewrite length_fmap.
Qed.

Lemma threadify_multiprocess_equivalent_witness :
  threadify (E:=Empty_set) reverse [1; 2; 3] (λ n : Z, Returned (n + 1)) 4 "run"
    = multiprocess __threadify_index_handler (2 ^ 31 - 2) (λ fs, fs) [1; 2; 3]
        (λ n : Z, Returned (n + 1)) 4 "run".
Proof.
  refine (proj1 (threadify_multiprocess_equivalent (E:=Empty_set)
                   __threadify_index_handler (2 ^ 31 - 2) reverse (λ fs, fs)
                   (λ n : Z, Returned (n + 1)) (λ n, n + 1) [1; 2; 3] 4 "run"
                   _ _ _ _ _)).
  - intros fs. apply reverse_Permutation.
  - intros fs. reflexivity.
  - lia.
  - intros k args _. reflexivity.
  - intros args _. reflexivity.
Defined.

(** * The properties of the specification: the fetch pipeline *)

Import Downloader DownloaderFacts.

(** C6 (pagination total validation).  A paginated query whose pages are
    all served asks for every page once, page 1 and then pages 2 to
    [ceil(total/per_page)], [total] being the total reported with the first
    page, and accumulates their records in that order.  If the accumulated
    count differs from the total it raises [ValueError]; if the counts match
    it returns the accumulated list, which has exactly [total] records.
    Nothing is asked for twice, and [get_pictures_from_taxa] passes the
    exception on. *)
Theorem pagination_total_validation
    (remote : string → gmap string Z → outcome exn Response)
    (json_loads : string → option page)
    (endpoint : string) (params : gmap string Z) (per_page : Z)
    (pages : Z → page) (w : world) :
  let url := "https://minka-sdg.org:4000/v1/" +:+ endpoint in
  let first := <["per_page" := per_page]> params in
  let total := total_results (pages 1) in
  let npages := ceil_div total per_page in
  let accumulated :=
    results (pages 1) ++ concat ((λ k, results (pages k)) <$> seqZ 2 (npages - 1)) in
  let run := minka_get_pagination remote json_loads endpoint params per_page w in
  per_page ≠ 0 →
  serves remote json_loads url first (pages 1) →
  (∀ k, 1 < k ≤ npages → serves remote json_loads url (<["page" := k]> first) (pages k)) →
  (Z.of_nat (length accumulated) ≠ total →
     run.1 = Raised (ValueError "Expected and returned lengths do not match")) ∧
  (Z.of_nat (length accumulated) = total →
     run.1 = Returned accumulated) ∧
  run.2 = logged w ((url, first) ::
                    ((λ k, (url, <["page" := k]> first)) <$> seqZ 2 (npages - 1))) ∧
  (∀ taxa_id taxa w1 e w2,
     minka_get_pagination remote json_loads "observations"
       {["taxon_id" := taxa_id]} 200 w1 = (Raised e, w2) →
     get_pictures_from_taxa remote json_loads taxa_id taxa w1 = (Raised e, w2)).
Proof.
  intros url first total npages accumulated run Hper Hfirst Hrest.
  subst run.
  rewrite (minka_get_pagination_serves remote json_loads endpoint params per_page pages w)
    by done.
  fold url first total npages accumulated. cbn [fst snd].
  split; [|split; [|split]].
  - intros Hne. by rewrite decide_True.
  - intros Heq. by rewrite decide_False by (by intros ?).
  - done.
  - intros taxa_id taxa w1 e w2 Hraise.
    unfold get_pictures_from_taxa, bind. by rewrite Hraise.
Qed.

(** Five records on three pages of two: the counts match and the list is
    returned; when the second page comes back one record short, the query
    raises. *)
Lemma pagination_total_validation_witness :
  (minka_get_pagination demo_remote demo_json_loads "observations"
     {["taxon_id" := 12]} 2 demo_w0).1
    = Returned [demo_o1; demo_o2; demo_o3; demo_o4; demo_o5] ∧
  (minka_get_pagination demo_short_remote demo_json_loads "observations"
     {["taxon_id" := 12]} 2 demo_w0).1
    = Raised (ValueError "Expected and returned lengths do not match").
Proof.
  split.
  - refine (proj1 (proj2 (pagination_total_validation demo_remote demo_json_loads
                            "observations" {["taxon_id" := 12]} 2 demo_pages demo_w0
                            _ _ _)) _).
    + lia.
    + eexists. split; [vm_compute; reflexivity|]. split; [simpl; lia|reflexivity].
    + intros k Hk. change (ceil_div (total_results (demo_pages 1)) 2) with 3 in Hk.
      assert (k = 2 ∨ k = 3) as [->| ->] by lia;
        (eexists; split; [vm_compute; reflexivity|]; split; [simpl; lia|reflexivity]).
    + reflexivity.
  - refine (proj1 (pagination_total_validation demo_short_remote demo_json_loads
                     "observations" {["taxon_id" := 12]} 2 demo_short_pages demo_w0
                     _ _ _) _).
    + lia.
    + eexists. split; [vm_compute; reflexivity|]. split; [simpl; lia|reflexivity].
    + intros k Hk. change (ceil_div (total_results (demo_short_pages 1)) 2) with 3 in Hk.
      assert (k = 2 ∨ k = 3) as [->| ->] by lia;
        (eexists; split; [vm_compute; reflexivity|]; split; [simpl; lia|reflexivity]).
    + vm_compute. lia.
Defined.

(** C7, as the specification words it, fails when the destination cannot
    be written: picture 7 of the small server is found as a png, with
    status 200, but the folder of the destination does not exist, and the
    handler raises the error of [open] instead of writing the content and
    returning [(True, url)]. *)
Lemma download_picture_unwritable_destination :
  demo_remote (picture_url 7 "png") ∅ =
    Returned {| status_code := 200; text := ""; content := demo_png |} ∧
  download_picture demo_remote demo_nodir_disk 7 "nodir/7.jpeg" demo_w0 =
    (Raised (OSError "FileNotFoundError"),
     {| requests := [(picture_url 7 "jpeg", ∅); (picture_url 7 "jpg", ∅);
                     (picture_url 7 "png", ∅)];
        files := ∅ |}).
Proof. split; vm_compute; reflexivity. Qed.

(** C7 (structured failure of the download handler), amended.
    [download_picture] asks for the extensions in the order jpeg, jpg, png
    and stops at the first response with a status below 300.  If the
    destination can then be written, it writes the content received to the
    destination path and returns [(True, url)] for that URL; if the
    destination cannot be opened or written, it raises the error of the
    file system.  If all three attempts are answered with a status of 300
    or more it writes nothing and returns [(False, url)] for the last URL
    tried, as data.  So no status of a response makes it raise: when it
    raises, a request has raised or the destination could not be
    written. *)
Theorem download_picture_structured
    (remote : string → gmap string Z → outcome exn Response)
    (disk : string → list Byte.byte → write_outcome)
    (pic_id : Z) (output : string) (w : world) :
  let url_jpeg := picture_url pic_id "jpeg" in
  let url_jpg := picture_url pic_id "jpg" in
  let url_png := picture_url pic_id "png" in
  let run := download_picture remote disk pic_id output w in
  let saved url r reqs :=
    match disk output (content r) with
    | Written =>
        (Returned (true, url),
         {| requests := requests w ++ reqs;
            files := <[output := content r]> (files w) |})
    | OpenFailed e =>
        (Raised e, {| requests := requests w ++ reqs; files := files w |})
    | WriteFailed e kept =>
        (Raised e,
         {| requests := requests w ++ reqs; files := <[output := kept]> (files w) |})
    end in
  (∀ r1, remote url_jpeg ∅ = Returned r1 → status_code r1 < 300 →
     run = saved url_jpeg r1 [(url_jpeg, ∅)]) ∧
  (∀ r1 r2,
     remote url_jpeg ∅ = Returned r1 → 300 ≤ status_code r1 →
     remote url_jpg ∅ = Returned r2 → status_code r2 < 300 →
     run = saved url_jpg r2 [(url_jpeg, ∅); (url_jpg, ∅)]) ∧
  (∀ r1 r2 r3,
     remote url_jpeg ∅ = Returned r1 → 300 ≤ status_code r1 →
     remote url_jpg ∅ = Returned r2 → 300 ≤ status_code r2 →
     remote url_png ∅ = Returned r3 → status_code r3 < 300 →
     run = saved url_png r3 [(url_jpeg, ∅); (url_jpg, ∅); (url_png, ∅)]) ∧
  (∀ r1 r2 r3,
     remote url_jpeg ∅ = Returned r1 → 300 ≤ status_code r1 →
     remote url_jpg ∅ = Returned r2 → 300 ≤ status_code r2 →
     remote url_png ∅ = Returned r3 → 300 ≤ status_code r3 →
     run = (Returned (false, url_png),
            {| requests := requests w ++ [(url_jpeg, ∅); (url_jpg, ∅); (url_png, ∅)];
               files := files w |})) ∧
  (∀ e, run.1 = Raised e →
     (∃ format, format ∈ formats ∧ remote (picture_url pic_id format) ∅ = Raised e) ∨
     (∃ r, disk output (content r) ≠ Written)).
Proof.
  intros url_jpeg url_jpg url_png run saved. subst run.
  rewrite download_picture_unfold. cbv zeta. fold url_jpeg url_jpg url_png.
  split; [|split; [|split; [|split]]].
  - intros r1 -> Hs1. by rewrite decide_True.
  - intros r1 r2 -> Hs1 -> Hs2. rewrite decide_False by lia. by rewrite decide_True.
  - intros r1 r2 r3 -> Hs1 -> Hs2 -> Hs3.
    rewrite !decide_False by lia. by rewrite decide_True.
  - intros r1 r2 r3 -> Hs1 -> Hs2 -> Hs3. by rewrite !decide_False by lia.
  - assert ("jpeg" ∈ formats ∧ "jpg" ∈ formats ∧ "png" ∈ formats)
      as (Hf1 & Hf2 & Hf3) by (unfold formats; set_solver).
    intros e.
    destruct (remote url_jpeg ∅) as [r1|e1] eqn:H1;
      [|intros [= <-]; left; by exists "jpeg"].
    destruct (decide (status_code r1 < 300)).
    { destruct (disk output (content r1)) eqn:Hd; intros [= <-];
        right; exists r1; by rewrite Hd. }
    destruct (remote url_jpg ∅) as [r2|e2] eqn:H2;
      [|intros [= <-]; left; by exists "jpg"].
    destruct (decide (status_code r2 < 300)).
    { destruct (disk output (content r2)) eqn:Hd; intros [= <-];
        right; exists r2; by rewrite Hd. }
    destruct (remote url_png ∅) as [r3|e3] eqn:H3;
      [|intros [= <-]; left; by exists "png"].
    destruct (decide (status_code r3 < 300)); [|intros [= ]].
    destruct (disk output (content r3)) eqn:Hd; intros [= <-];
      right; exists r3; by rewrite Hd.
Qed.

(** Picture 7 of the small server: 404 for jpeg, 300 for jpg, found as png
    and written to a destination whose folder exists. *)
Lemma download_picture_structured_witness :
  download_picture demo_remote demo_nodir_disk 7 "out/7.jpeg" demo_w0 =
    (Returned (true, picture_url 7 "png"),
     {| requests := [(picture_url 7 "jpeg", ∅); (picture_url 7 "jpg", ∅);
                     (picture_url 7 "png", ∅)];
        files := {["out/7.jpeg" := demo_png]} |}).
Proof.
  refine (proj1 (proj2 (proj2 (download_picture_structured demo_remote demo_nodir_disk
                                 7 "out/7.jpeg" demo_w0)))
            {| status_code := 404; text := "not found"; content := [] |}
            {| status_code := 300; text := "multiple choices"; content := [] |}
            {| status_code := 200; text := ""; content := demo_png |}
            _ _ _ _ _ _).
  - vm_compute. reflexivity.
  - simpl. lia.
  - vm_compute. reflexivity.
  - simpl. lia.
  - vm_compute. reflexivity.
  - simpl. lia.
Defined.

(** C9, as the specification words it, fails on picture ids that do not
    fit one integer type of 64 bits: with the ids 2^63 + 1 and -1 the array
    of [np.unique] is one of floats, the id 2^63 + 1 comes back as 2^63, and
    2^63 has no entry in the licenses. *)
Lemma get_pictures_from_taxa_float_ids :
  ∃ licenses w',
    get_pictures_from_taxa demo_remote demo_big_json_loads 12 "Chromis chromis" demo_w0
      = (Returned ([-1; 2 ^ 63], licenses), w') ∧
    licenses !! (2 ^ 63) = None ∧
    ¬ ∃ o, o ∈ demo_big ∧ 2 ^ 63 ∈ photo_ids o.
Proof.
  eexists _, _. split; [vm_compute; reflexivity|]. split; [vm_compute; reflexivity|].
  intros (o & Ho & Hp). unfold demo_big in Ho.
  apply elem_of_cons in Ho as [->|Ho].
  - apply list_elem_of_singleton in Hp. vm_compute in Hp. discriminate Hp.
  - apply list_elem_of_singleton in Ho as ->.
    apply list_elem_of_singleton in Hp. vm_compute in Hp. discriminate Hp.
Qed.

(** C9 (picture ids and licenses of a taxon), amended.  When the paginated
    query returns the observations [obs] and every picture id fits a signed
    integer of 64 bits, [get_pictures_from_taxa] returns the picture ids of
    [obs] in strictly ascending numeric order, each once, whatever the
    order in which the observations list them, and a dictionary that maps
    every returned id to a non-empty string.  The entry of a picture is the
    license code of the last observation that contains it, or "unknown"
    when that code is null or the empty string. *)
Theorem get_pictures_from_taxa_sorted_licensed
    (remote : string → gmap string Z → outcome exn Response)
    (json_loads : string → option page)
    (taxa_id : Z) (taxa : string) (w w' : world) (obs : list observation) :
  minka_get_pagination remote json_loads "observations"
    {["taxon_id" := taxa_id]} 200 w = (Returned obs, w') →
  (∀ o p, o ∈ obs → p ∈ photo_ids o → - 2 ^ 63 ≤ p < 2 ^ 63) →
  ∃ (pic_ids : list Z) (licenses : gmap Z string),
    get_pictures_from_taxa remote json_loads taxa_id taxa w
      = (Returned (pic_ids, licenses), w') ∧
    StronglySorted Z.lt pic_ids ∧
    NoDup pic_ids ∧
    (∀ p, p ∈ pic_ids ↔ ∃ o, o ∈ obs ∧ p ∈ photo_ids o) ∧
    (∀ p, p ∈ pic_ids → ∃ s, licenses !! p = Some s ∧ s ≠ "") ∧
    (∀ before o after p,
       obs = before ++ o :: after →
       p ∈ photo_ids o →
       (∀ o', o' ∈ after → p ∉ photo_ids o') →
       licenses !! p = Some (match license_code o with
                             | Some s => if decide (s = "") then "unknown" else s
                             | None => "unknown"
                             end)).
Proof.
  intros Hquery Hfit. unfold get_pictures_from_taxa, bind. rewrite Hquery.
  pose proof (results_loop_ids obs [] ∅) as Hids.
  destruct (results_loop obs [] ∅) as [ids licenses] eqn:Hloop.
  simpl in Hids. subst ids.
  assert (∀ p, p ∈ np_unique (concat (photo_ids <$> obs)) ↔
               ∃ o, o ∈ obs ∧ p ∈ photo_ids o) as Hmem.
  { intros p. rewrite elem_of_np_unique, np_array_int64, elem_of_concat.
    - split.
      + intros (l & Hp & Hl). apply list_elem_of_fmap in Hl as (o & -> & Ho). eauto.
      + intros (o & Ho & Hp). exists (photo_ids o). split; [done|].
        by apply list_elem_of_fmap_2.
    - intros n (l & Hn & Hl)%elem_of_concat.
      apply list_elem_of_fmap in Hl as (o & -> & Ho). by apply (Hfit o). }
  assert (∀ before o after p,
            obs = before ++ o :: after → p ∈ photo_ids o →
            (∀ o', o' ∈ after → p ∉ photo_ids o') →
            licenses !! p = Some (license_text (license_code o))) as Hlast.
  { intros before o after p -> Hp Hafter.
    pose proof (results_loop_lookup_last before o after [] ∅ p Hp Hafter) as Hl.
    by rewrite Hloop in Hl. }
  exists (np_unique (concat (photo_ids <$> obs))), licenses.
  split; [done|]. split; [apply np_unique_sorted|].
  split; [apply strictly_sorted_NoDup, np_unique_sorted|].
  split; [exact Hmem|]. split; [|exact Hlast].
  intros p Hp. apply Hmem in Hp as (o & Ho & Hp).
  destruct (last_containing p obs) as (before & o' & after & Hobs & Hp' & Hafter);
    [by eauto|].
  exists (license_text (license_code o')). split.
  - by apply (Hlast before o' after).
  - apply license_text_nonempty.
Qed.

(** The five observations of the small server list the pictures as
    5, 3, 4, 9, 3, 1, with picture 3 under "cc-by" and later under "cc0". *)
Lemma get_pictures_from_taxa_sorted_licensed_witness :
  ∃ (pic_ids : list Z) (licenses : gmap Z string),
    get_pictures_from_taxa demo_remote demo_json_loads 12 "Chromis chromis" demo_w0
      = (Returned (pic_ids, licenses),
         logged demo_w0 [("https://minka-sdg.org:4000/v1/observations",
                          <["per_page" := 200]> {["taxon_id" := 12]})]) ∧
    StronglySorted Z.lt pic_ids ∧
    NoDup pic_ids ∧
    (∀ p, p ∈ pic_ids ↔
          ∃ o, o ∈ [demo_o1; demo_o2; demo_o3; demo_o4; demo_o5] ∧ p ∈ photo_ids o) ∧
    (∀ p, p ∈ pic_ids → ∃ s, licenses !! p = Some s ∧ s ≠ "") ∧
    (∀ before o after p,
       [demo_o1; demo_o2; demo_o3; demo_o4; demo_o5] = before ++ o :: after →
       p ∈ photo_ids o →
       (∀ o', o' ∈ after → p ∉ photo_ids o') →
       licenses !! p = Some (match license_code o with
                             | Some s => if decide (s = "") then "unknown" else s
                             | None => "unknown"
                             end)).
Proof.
  apply (get_pictures_from_taxa_sorted_licensed demo_remote demo_json_loads
           12 "Chromis chromis" demo_w0).
  - vm_compute. reflexivity.
  - intros o p Ho Hp.
    repeat (apply elem_of_cons in Ho as [->|Ho];
            [cbv [photo_ids demo_o1 demo_o2 demo_o3 demo_o4 demo_o5
                  demo_observation photos fmap list_fmap photo_id] in Hp;
             repeat (apply elem_of_cons in Hp as [->|Hp];
                     [split; by vm_compute|]);
             by apply elem_of_nil in Hp|]).
    by apply elem_of_nil in Ho.
Defined.

(** What the call returns there: the ids in ascending order, not in the
    order met, and the licenses. *)
Example get_pictures_from_taxa_demo :
  (get_pictures_from_taxa demo_remote demo_json_loads 12 "Chromis chromis" demo_w0).1
    = Returned ([1; 3; 4; 5; 9],
                <[1 := "cc-by-nc"]> (<[3 := "cc0"]> (<[9 := "unknown"]>
                  (<[4 := "unknown"]> (<[5 := "cc-by"]> ∅))))).
Proof. vm_compute. reflexivity. Qed.



(** * Further properties of the executors *)

Section FailingRuns.
Context {Args R E : Type}.
Implicit Types (handler : @Handler Args R E) (arg_list : list Args)
  (as_completed : list (@Future R E) → list (@Future R E)).

(** A list of futures either holds results only, or has a first future
    that raises. *)
Lemma futures_split (fs : list (@Future R E)) :
  (∃ rs, fs = Returned <$> rs) ∨
  (∃ rs e rest, fs = (Returned <$> rs) ++ Raised e :: rest).
Proof.
  induction fs as [|[r|e] fs IH].
  - left. by exists [].
  - destruct IH as [[rs ->]|(rs & e & rest & ->)].
    + left. by exists (r :: rs).
    + right. by exists (r :: rs), e, rest.
  - right. by exists [], e, fs.
Qed.

(** The collection loop stops at the first future that raises, after one
    update of the bar for each future before it. *)
Lemma collect_stops (rs : list (nat * R)) (e : E) rest results log :
  collect ((Returned <$> rs) ++ Raised e :: rest) results log =
    (Raised e, log ++ replicate (length rs) (Update 1%nat)).
Proof.
  revert results log. induction rs as [|r rs IH]; intros results log; csimpl.
  - by rewrite app_nil_r.
  - rewrite IH, <-app_assoc. done.
Qed.

(** What the collection loop of either executor makes of the submitted
    futures, in any completion order. *)
Lemma collect_cases as_completed handler arg_list log :
  completion_order as_completed →
  let threads := imap (λ k, __threadify_index_handler (0 + k) handler) arg_list in
  (∃ results,
     collect (as_completed threads) [] log =
       (Returned results, log ++ replicate (length arg_list) (Update 1%nat)) ∧
     ∀ args, args ∈ arg_list → ∃ r, handler args = Returned r) ∨
  (∃ e k,
     collect (as_completed threads) [] log =
       (Raised e, log ++ replicate k (Update 1%nat)) ∧
     (k < length arg_list)%nat ∧
     ∃ args, args ∈ arg_list ∧ handler args = Raised e).
Proof.
  intros Hperm threads.
  pose proof (Hperm threads) as Hdone.
  assert (length (as_completed threads) = length arg_list) as Hlen.
  { rewrite Hdone. unfold threads. by rewrite length_imap. }
  destruct (futures_split (as_completed threads))
    as [[rs Hrs]|(rs & e & rest & Hrs)]; rewrite Hrs in *.
  - left. exists rs. split.
    + rewrite collect_returned. rewrite length_fmap in Hlen. by rewrite Hlen.
    + intros args Hin. destruct (handler args) as [r|e] eqn:Hargs; [by exists r|].
      pose proof (submitted_raises handler arg_list 0 args e Hin Hargs) as Hraised.
      fold threads in Hraised. rewrite <-Hdone in Hraised.
      apply list_elem_of_fmap in Hraised as (? & ? & _). done.
  - right. exists e, (length rs). split; [apply collect_stops|]. split.
    + rewrite length_app, length_fmap in Hlen. simpl in Hlen. lia.
    + apply (raised_submitted handler arg_list 0). fold threads.
      rewrite <-Hdone. apply elem_of_app. right. by left.
Qed.

(** The same for any list of futures, as the process pool has them. *)
Lemma collect_any as_completed (fs : list (@Future R E)) log :
  completion_order as_completed →
  (∃ results,
     collect (as_completed fs) [] log =
       (Returned results, log ++ replicate (length fs) (Update 1%nat)) ∧
     ∀ f, f ∈ fs → ∃ r, f = Returned r) ∨
  (∃ e k,
     collect (as_completed fs) [] log = (Raised e, log ++ replicate k (Update 1%nat)) ∧
     (k < length fs)%nat ∧ Raised e ∈ fs).
Proof.
  intros Hperm. pose proof (Hperm fs) as Hdone.
  assert (length (as_completed fs) = length fs) as Hlen by (by rewrite Hdone).
  destruct (futures_split (as_completed fs))
    as [[rs Hrs]|(rs & e & rest & Hrs)]; rewrite Hrs in *.
  - left. exists rs. split.
    + rewrite collect_returned. rewrite length_fmap in Hlen. by rewrite Hlen.
    + intros f Hf. rewrite <-Hdone in Hf.
      apply list_elem_of_fmap in Hf as (r & -> & _). by exists r.
  - right. exists e, (length rs). split; [apply collect_stops|]. split.
    + rewrite length_app, length_fmap in Hlen. simpl in Hlen. lia.
    + rewrite <-Hdone. apply elem_of_app. right. by left.
Qed.
End FailingRuns.

(** X1 (progress of a failing run).  When the handler raises on some task,
    a run of [threadify] (worker count at least one, any completion order)
    still creates the bar with the number of tasks as its total and still
    stops the progress reporter; the counter an observer reads goes 0, 1,
    ..., k for some k strictly below the total, and never reaches it. *)
Theorem threadify_failing_run_progress {Args R E}
    (as_completed : list (@Future R E) → list (@Future R E))
    (handler : @Handler Args R E)
    (arg_list : list Args) (max_threads : Z) (text : string) :
  completion_order as_completed →
  0 < max_threads →
  (∃ args e, args ∈ arg_list ∧ handler args = Raised e) →
  let log := (threadify as_completed arg_list handler max_threads text).2 in
  ∃ k, (k < length arg_list)%nat ∧
       log = [ProgressStart; AddTask text (length arg_list)] ++
             replicate k (Update 1%nat) ++ [ProgressStop] ∧
       observed log = seq 0 (S k) ∧
       length arg_list ∉ observed log.
Proof.
  intros Hperm Hpos (args & e & Hin & Hraise) log. subst log.
  unfold threadify. rewrite decide_False by lia. rewrite submit_all_spec. cbn [app].
  destruct (collect_cases as_completed handler arg_list
              [ProgressStart; AddTask text (0 + length arg_list)] Hperm)
    as [(results & _ & Hall)|(e' & k & -> & Hk & _)].
  - destruct (Hall args Hin) as [r Hr]. congruence.
  - exists k. cbn [snd Nat.add]. rewrite <-app_assoc. split; [done|].
    assert (observed ([ProgressStart; AddTask text (length arg_list)] ++
                      replicate k (Update 1%nat) ++ [ProgressStop]) = seq 0 (S k))
      as Hobs.
    { unfold observed. cbn [app observed_from].
      rewrite observed_from_updates. simpl. by rewrite app_nil_r. }
    split; [done|]. rewrite Hobs.
    split; [done|]. rewrite elem_of_seq. lia.
Qed.

(** The handler raises on the second of three tasks. *)
Lemma threadify_failing_run_progress_witness :
  let log := (threadify (λ fs, fs) [1; 2; 3]
                (λ n : Z, if decide (n = 2) then Raised "boom" else Returned n)
                10 "progress...").2 in
  ∃ k, (k < 3)%nat ∧
       log = [ProgressStart; AddTask "progress..." 3] ++
             replicate k (Update 1%nat) ++ [ProgressStop] ∧
       observed log = seq 0 (S k) ∧
       3%nat ∉ observed log.
Proof.
  refine (threadify_failing_run_progress (λ fs, fs)
            (λ n : Z, if decide (n = 2) then Raised "boom" else Returned n)
            [1; 2; 3] 10 "progress..." _ _ _).
  - intros fs. reflexivity.
  - lia.
  - exists 2, "boom". split; [|reflexivity]. right. left.
Defined.

(** X2 (when a run returns).  A run of [threadify] (worker count at least
    one, any completion order) returns a list exactly when the handler
    returns on every task; it raises exactly when the handler raises on
    some task. *)
Theorem threadify_returns_iff {Args R E}
    (as_completed : list (@Future R E) → list (@Future R E))
    (handler : @Handler Args R E)
    (arg_list : list Args) (max_threads : Z) (text : string) :
  completion_order as_completed →
  0 < max_threads →
  let run := threadify as_completed arg_list handler max_threads text in
  ((∃ final_results, run.1 = Returned final_results) ↔
   (∀ args, args ∈ arg_list → ∃ r, handler args = Returned r)) ∧
  ((∃ e, run.1 = Raised (HandlerError e)) ↔
   (∃ args e, args ∈ arg_list ∧ handler args = Raised e)).
Proof.
  intros Hperm Hpos run. subst run.
  unfold threadify. rewrite decide_False by lia. rewrite submit_all_spec. cbn [app].
  destruct (collect_cases as_completed handler arg_list
              [ProgressStart; AddTask text (0 + length arg_list)] Hperm)
    as [(results & -> & Hall)|(e & k & -> & _ & args & Hin & Hraise)]; cbn [fst].
  - split; split.
    + done.
    + intros _. by eexists.
    + intros [e He]. done.
    + intros (args & e & Hin & Hraise). destruct (Hall args Hin) as [r Hr].
      congruence.
  - split; split.
    + intros [final_results Hfinal]. done.
    + intros Hall. destruct (Hall args Hin) as [r Hr]. congruence.
    + intros _. by exists args, e.
    + intros _. by exists e.
Qed.

Lemma threadify_returns_iff_witness :
  let run := threadify (E:=string) reverse [1; 2; 3] (λ n : Z, Returned (n + 1))
               2 "run" in
  ((∃ final_results, run.1 = Returned final_results) ↔
   (∀ args, args ∈ [1; 2; 3] → ∃ r, Returned (E:=string) (args + 1) = Returned r)) ∧
  ((∃ e, run.1 = Raised (HandlerError e)) ↔
   (∃ args e, args ∈ [1; 2; 3] ∧ Returned (E:=string) (args + 1) = Raised e)).
Proof.
  refine (threadify_returns_iff (E:=string) reverse (λ n : Z, Returned (n + 1))
            [1; 2; 3] 2 "run" _ _).
  - intros fs. apply reverse_Permutation.
  - lia.
Defined.

(** X3 (fail-fast on the process pool).  If the future of some submitted
    call raises, because the handler raised in the worker process or
    because the call or its result did not cross the process boundary,
    [multiprocess] (worker count at least one and within what the pool is
    built for, any completion order) returns no list: it raises the
    exception of one of the futures, and the progress reporter is stopped
    with the counter below the total. *)
Theorem multiprocess_fail_fast {Args R E}
    (shipped : nat → @Handler Args R E → Args → @Future R E) (pool_limit : Z)
    (as_completed : list (@Future R E) → list (@Future R E))
    (handler : @Handler Args R E)
    (arg_list : list Args) (max_workers : Z) (text : string) :
  completion_order as_completed →
  0 < max_workers ≤ pool_limit →
  (∃ i args e, arg_list !! i = Some args ∧ shipped i handler args = Raised e) →
  ∃ e k,
    multiprocess shipped pool_limit as_completed arg_list handler max_workers text =
      (Raised (HandlerError e),
       [ProgressStart; AddTask text (length arg_list)] ++
       replicate k (Update 1%nat) ++ [ProgressStop]) ∧
    (k < length arg_list)%nat ∧
    ∃ i args, arg_list !! i = Some args ∧ shipped i handler args = Raised e.
Proof.
  intros Hperm Hworkers (i & args & e & Hi & Hraise).
  unfold multiprocess. rewrite !decide_False by lia.
  rewrite submit_processes_spec. cbn [app].
  set (processes := imap (λ k, shipped (0 + k)%nat handler) arg_list).
  assert (length processes = length arg_list) as Hlen
    by (unfold processes; by rewrite length_imap).
  destruct (collect_any as_completed processes
              [ProgressStart; AddTask text (0 + length arg_list)] Hperm)
    as [(results & _ & Hall)|(e' & k & -> & Hk & Hfrom)].
  - destruct (Hall (Raised e)) as [r Hr]; [|done].
    apply list_elem_of_lookup. exists i. unfold processes.
    rewrite list_lookup_imap, Hi. simpl. by rewrite Hraise.
  - exists e', k. split; [by rewrite <-app_assoc|]. split; [lia|].
    apply list_elem_of_lookup in Hfrom as [j Hj]. unfold processes in Hj.
    rewrite list_lookup_imap in Hj.
    destruct (arg_list !! j) as [args'|] eqn:Hargs; [|done].
    exists j, args'. split; [done|]. simpl in Hj. congruence.
Qed.

(** The handler raises on the second of three calls, which cross the
    process boundary unchanged. *)
Lemma multiprocess_fail_fast_witness :
  ∃ e k,
    multiprocess __threadify_index_handler (2 ^ 31 - 2) reverse [1; 2; 3]
      (λ n : Z, if decide (n = 2) then Raised "boom" else Returned n) 20 "run" =
      (Raised (HandlerError e),
       [ProgressStart; AddTask "run" 3] ++ replicate k (Update 1%nat) ++ [ProgressStop]) ∧
    (k < 3)%nat ∧
    ∃ i args, [1; 2; 3] !! i = Some args ∧
      __threadify_index_handler i
        (λ n : Z, if decide (n = 2) then Raised "boom" else Returned n) args
        = Raised (E:=string) (A:=nat * Z) e.
Proof.
  refine (multiprocess_fail_fast __threadify_index_handler (2 ^ 31 - 2) reverse
            (λ n : Z, if decide (n = 2) then Raised "boom" else Returned n)
            [1; 2; 3] 20 "run" _ _ _).
  - intros fs. apply reverse_Permutation.
  - lia.
  - exists 1%nat, 2, "boom". split; reflexivity.
Defined.

(** * Further properties of the fetch pipeline *)

Section QueryEffects.
Variable remote : string → gmap string Z → outcome exn Response.
Variable json_loads : string → option page.

(** Whatever the answer, [minka_get] issues one request and nothing else. *)
Lemma minka_get_world endpoint params w :
  (minka_get remote json_loads endpoint params w).2 =
    logged w [("https://minka-sdg.org:4000/v1/" +:+ endpoint, params)].
Proof.
  unfold minka_get, bind. rewrite requests_get_spec.
  destruct (remote _ params) as [r|e]; [|done].
  destruct (decide (status_code r > 300)); [done|].
  by destruct (json_loads (text r)).
Qed.

(** Whether [minka_get] raises does not depend on what went before. *)
Lemma minka_get_raised endpoint params w0 w e :
  (minka_get remote json_loads endpoint params w0).1 = Raised e →
  minka_get remote json_loads endpoint params w =
    (Raised e, logged w [("https://minka-sdg.org:4000/v1/" +:+ endpoint, params)]).
Proof.
  unfold minka_get, bind. rewrite !requests_get_spec.
  destruct (remote _ params) as [r|e']; [|by intros [= ->]].
  destruct (decide (status_code r > 300)); [by intros [= ->]|].
  destruct (json_loads (text r)); [done|by intros [= ->]].
Qed.

Lemma pages_loop_world endpoint npages (n : nat) :
  ∀ i params results w,
    n = Z.to_nat (npages - i) →
    ∃ reqs, (pages_loop remote json_loads endpoint npages i params results w).2 =
              logged w reqs.
Proof.
  induction n as [|n IH]; intros i params results w Hn;
    rewrite pages_loop_equation_1; destruct (decide (i < npages)) as [Hlt|Hge];
    try lia; simpl.
  - exists []. by rewrite logged_nil.
  - unfold bind.
    pose proof (minka_get_world endpoint (<["page" := i + 1]> params) w) as Hw.
    destruct (minka_get remote json_loads endpoint (<["page" := i + 1]> params) w)
      as [[resp|e] w1]; simpl in Hw; subst w1.
    + destruct (IH (i + 1) (<["page" := i + 1]> params) (results ++ Downloader.results resp)
                  (logged w [("https://minka-sdg.org:4000/v1/" +:+ endpoint,
                              <["page" := i + 1]> params)])) as [reqs ->]; [lia|].
      eexists. by rewrite logged_logged.
    + by eexists.
Qed.

Lemma minka_get_pagination_world endpoint params per_page w :
  ∃ reqs, (minka_get_pagination remote json_loads endpoint params per_page w).2 =
            logged w reqs.
Proof.
  unfold minka_get_pagination, bind.
  pose proof (minka_get_world endpoint (<["per_page" := per_page]> params) w) as Hw.
  destruct (minka_get remote json_loads endpoint (<["per_page" := per_page]> params) w)
    as [[resp|e] w1]; simpl in Hw; subst w1; [|by eexists].
  destruct (decide (per_page = 0)); [by eexists|].
  set (w1 := logged w _). set (npages := ceil_div _ _).
  destruct (pages_loop_world endpoint npages (Z.to_nat (npages - 1)) 1
              (<["per_page" := per_page]> params) (Downloader.results resp) w1 eq_refl)
    as [reqs Hreqs].
  destruct (pages_loop remote json_loads endpoint npages 1 _ _ w1) as [[rs|e] w2];
    simpl in Hreqs; subst w2.
  - unfold w1. rewrite logged_logged.
    destruct (decide (Z.of_nat (length rs) ≠ total_results resp)); by eexists.
  - unfold w1. rewrite logged_logged. by eexists.
Qed.

(** The loop over the pages when the pages before page [k] are served and
    page [k] fails: it stops there. *)
Lemma pages_loop_fails endpoint npages (pages : Z → page) (k : Z) (e : exn) (n : nat) :
  ∀ i params results w w0,
    n = Z.to_nat (k - i) →
    i < k ≤ npages →
    (∀ j, i < j < k →
       serves remote json_loads ("https://minka-sdg.org:4000/v1/" +:+ endpoint)
         (<["page" := j]> params) (pages j)) →
    (minka_get remote json_loads endpoint (<["page" := k]> params) w0).1 = Raised e →
    pages_loop remote json_loads endpoint npages i params results w =
      (Raised e,
       logged w ((λ j, ("https://minka-sdg.org:4000/v1/" +:+ endpoint,
                        <["page" := j]> params)) <$> seqZ (i + 1) (k - i))).
Proof.
  induction n as [|n IH]; intros i params results w w0 Hn Hk Hserved Hfail; [lia|].
  rewrite pages_loop_equation_1. destruct (decide (i < npages)) as [Hlt|Hge]; [|lia].
  simpl. unfold bind.
  destruct (decide (i + 1 = k)) as [Heq|Hne].
  - rewrite Heq. rewrite (minka_get_raised endpoint _ w0 w e Hfail).
    replace (k - i) with 1 by lia. done.
  - rewrite (minka_get_serves remote json_loads endpoint _ (pages (i + 1)))
      by (apply Hserved; lia).
    rewrite (IH (i + 1) _ _ _ w0); [|lia|lia| |].
    + rewrite (seqZ_cons (i + 1) (k - i)) by lia.
      replace (Z.pred (k - i)) with (k - (i + 1)) by lia.
      replace (Z.succ (i + 1)) with (i + 1 + 1) by lia.
      rewrite logged_logged. csimpl. do 3 f_equal.
      apply list_fmap_ext. intros _ j _. by rewrite insert_insert_eq.
    + intros j Hj. rewrite insert_insert_eq. apply Hserved. lia.
    + by rewrite insert_insert_eq.
Qed.
End QueryEffects.

(** X4 (a failing page aborts the query).  When the first page and the
    pages before page [k] are served and the request for page [k] fails
    (transport exception, status above 300 or a body that does not decode),
    [minka_get_pagination] raises that failure right after the request for
    page [k]: no later page is asked for, nothing is asked for again, and
    no partial list is returned. *)
Theorem pagination_page_failure_aborts
    (remote : string → gmap string Z → outcome exn Response)
    (json_loads : string → option page)
    (endpoint : string) (params : gmap string Z) (per_page : Z)
    (pages : Z → page) (k : Z) (e : exn) (w w0 : world) :
  let url := "https://minka-sdg.org:4000/v1/" +:+ endpoint in
  let first := <["per_page" := per_page]> params in
  let npages := ceil_div (total_results (pages 1)) per_page in
  per_page ≠ 0 →
  serves remote json_loads url first (pages 1) →
  1 < k ≤ npages →
  (∀ j, 1 < j < k → serves remote json_loads url (<["page" := j]> first) (pages j)) →
  (minka_get remote json_loads endpoint (<["page" := k]> first) w0).1 = Raised e →
  minka_get_pagination remote json_loads endpoint params per_page w =
    (Raised e,
     logged w ((url, first) :: ((λ j, (url, <["page" := j]> first)) <$> seqZ 2 (k - 1)))).
Proof.
  intros url first npages Hper Hfirst Hk Hserved Hfail.
  unfold minka_get_pagination, bind.
  rewrite (minka_get_serves remote json_loads endpoint _ (pages 1)) by done.
  rewrite decide_False by done.
  rewrite (pages_loop_fails remote json_loads endpoint _ pages k e
             (Z.to_nat (k - 1)) 1 _ _ _ w0); [|done|done|done|done].
  change (1 + 1) with 2. by rewrite logged_logged.
Qed.

(** Five records on three pages of two, the second page answering 503: the
    query raises after two requests and never asks for the third page. *)
Lemma pagination_page_failure_aborts_witness :
  minka_get_pagination demo_failing_remote demo_json_loads "observations"
    {["taxon_id" := 12]} 2 demo_w0 =
    (Raised (ValueError "Error in HTTP petition to MINKA"),
     {| requests :=
          [("https://minka-sdg.org:4000/v1/observations",
            <["per_page" := 2]> {["taxon_id" := 12]});
           ("https://minka-sdg.org:4000/v1/observations",
            <["page" := 2]> (<["per_page" := 2]> {["taxon_id" := 12]}))];
        files := ∅ |}).
Proof.
  refine (pagination_page_failure_aborts demo_failing_remote demo_json_loads
            "observations" {["taxon_id" := 12]} 2 demo_pages 2
            (ValueError "Error in HTTP petition to MINKA") demo_w0 demo_w0 _ _ _ _ _).
  - lia.
  - eexists. split; [vm_compute; reflexivity|]. split; [simpl; lia|reflexivity].
  - vm_compute. split; [reflexivity|]. intros H; discriminate H.
  - intros j Hj. lia.
  - vm_compute. reflexivity.
Defined.

(** X5 (queries leave the files alone).  Whatever the server answers and
    whether they return or raise, [minka_get], [minka_get_pagination] and
    [get_pictures_from_taxa] never write a file and never drop a request
    from the log: they only add requests to it, [minka_get] exactly one. *)
Theorem queries_never_write
    (remote : string → gmap string Z → outcome exn Response)
    (json_loads : string → option page) (w : world) :
  (∀ endpoint params,
     let run := minka_get remote json_loads endpoint params w in
     files run.2 = files w ∧
     requests run.2 =
       requests w ++ [("https://minka-sdg.org:4000/v1/" +:+ endpoint, params)]) ∧
  (∀ endpoint params per_page,
     let run := minka_get_pagination remote json_loads endpoint params per_page w in
     files run.2 = files w ∧ ∃ reqs, requests run.2 = requests w ++ reqs) ∧
  (∀ taxa_id taxa,
     let run := get_pictures_from_taxa remote json_loads taxa_id taxa w in
     files run.2 = files w ∧ ∃ reqs, requests run.2 = requests w ++ reqs).
Proof.
  split; [|split].
  - intros endpoint params run. subst run. by rewrite minka_get_world.
  - intros endpoint params per_page run. subst run.
    destruct (minka_get_pagination_world remote json_loads endpoint params per_page w)
      as [reqs ->].
    split; [done|]. by exists reqs.
  - intros taxa_id taxa run. subst run.
    unfold get_pictures_from_taxa, bind.
    destruct (minka_get_pagination_world remote json_loads "observations"
                {["taxon_id" := taxa_id]} 200 w) as [reqs Hreqs].
    destruct (minka_get_pagination remote json_loads "observations"
                {["taxon_id" := taxa_id]} 200 w) as [[obs|e] w1];
      simpl in Hreqs; subst w1.
    + destruct (results_loop obs [] ∅) as [pic_ids licenses]. simpl.
      split; [done|]. by exists reqs.
    + simpl. split; [done|]. by exists reqs.
Qed.

(** Case analysis on the three attempts of a download and on the write
    that follows a successful one. *)
Ltac download_cases remote disk pic_id output :=
  rewrite download_picture_unfold; cbv zeta;
  destruct (remote (picture_url pic_id "jpeg") ∅) as [?r1|?e1] eqn:?Hjpeg;
  [destruct (decide (status_code r1 < 300));
   [destruct (disk output (content r1)) eqn:?Hdisk
   |destruct (remote (picture_url pic_id "jpg") ∅) as [?r2|?e2] eqn:?Hjpg;
     [destruct (decide (status_code r2 < 300));
      [destruct (disk output (content r2)) eqn:?Hdisk
      |destruct (remote (picture_url pic_id "png") ∅) as [?r3|?e3] eqn:?Hpng;
        [destruct (decide (status_code r3 < 300));
         [destruct (disk output (content r3)) eqn:?Hdisk|]|]]|]]|].

(** X6 (what a returned pair means).  If [download_picture] returns
    [(True, url)], then [url] is the address of the picture under one of the
    three extensions, the server answered it with a status below 300, and
    the destination file now holds the content of that answer.  If it
    returns [(False, url)], then [url] is the png address, every one of the
    three addresses was answered with a status of 300 or more, and no file
    was written. *)
Theorem download_picture_sound
    (remote : string → gmap string Z → outcome exn Response)
    (disk : string → list Byte.byte → write_outcome)
    (pic_id : Z) (output : string) (w w' : world) (success : bool) (url : string) :
  download_picture remote disk pic_id output w = (Returned (success, url), w') →
  if success then
    ∃ format r, format ∈ formats ∧ url = picture_url pic_id format ∧
                remote url ∅ = Returned r ∧ status_code r < 300 ∧
                files w' = <[output := content r]> (files w) ∧
                files w' !! output = Some (content r)
  else
    url = picture_url pic_id "png" ∧ files w' = files w ∧
    ∀ format, format ∈ formats →
      ∃ r, remote (picture_url pic_id format) ∅ = Returned r ∧ 300 ≤ status_code r.
Proof.
  download_cases remote disk pic_id output; intros [= <- <- <-]; simpl.
  - exists "jpeg", r1. split; [unfold formats; set_solver|].
    rewrite lookup_insert_eq. done.
  - exists "jpg", r2. split; [unfold formats; set_solver|].
    rewrite lookup_insert_eq. done.
  - exists "png", r3. split; [unfold formats; set_solver|].
    rewrite lookup_insert_eq. done.
  - split; [done|]. split; [done|]. intros format Hformat.
    unfold formats in Hformat.
    apply elem_of_cons in Hformat as [->|Hformat]; [exists r1; split; [done|lia]|].
    apply elem_of_cons in Hformat as [->|Hformat]; [exists r2; split; [done|lia]|].
    apply list_elem_of_singleton in Hformat as ->. exists r3. split; [done|lia].
Qed.

(** Picture 7 of the small server is found as a png. *)
Lemma download_picture_sound_witness :
  ∃ format r, format ∈ formats ∧ picture_url 7 "png" = picture_url 7 format ∧
              demo_remote (picture_url 7 "png") ∅ = Returned r ∧ status_code r < 300 ∧
              files (download_picture demo_remote demo_disk 7 "out/7.jpeg" demo_w0).2
                = <["out/7.jpeg" := content r]> (files demo_w0) ∧
              files (download_picture demo_remote demo_disk 7 "out/7.jpeg" demo_w0).2
                !! "out/7.jpeg" = Some (content r).
Proof.
  refine (download_picture_sound demo_remote demo_disk 7 "out/7.jpeg" demo_w0
            (download_picture demo_remote demo_disk 7 "out/7.jpeg" demo_w0).2
            true (picture_url 7 "png") _).
  vm_compute. reflexivity.
Defined.

(** X7 (a download touches one file at most).  Whatever the server and the
    file system answer and however the call ends, [download_picture] leaves
    every file other than its destination as it was.  The destination is
    touched only after an attempt was answered with a status below 300: if
    no attempt is answered so, and whenever the call returns [False], no
    file is changed at all. *)
Theorem download_picture_frame
    (remote : string → gmap string Z → outcome exn Response)
    (disk : string → list Byte.byte → write_outcome)
    (pic_id : Z) (output : string) (w : world) :
  let run := download_picture remote disk pic_id output w in
  (∀ path, path ≠ output → files run.2 !! path = files w !! path) ∧
  ((∀ format r, format ∈ formats →
      remote (picture_url pic_id format) ∅ = Returned r → 300 ≤ status_code r) →
   files run.2 = files w) ∧
  (∀ url, run.1 = Returned (false, url) → files run.2 = files w).
Proof.
  assert ("jpeg" ∈ formats ∧ "jpg" ∈ formats ∧ "png" ∈ formats) as (Hf1 & Hf2 & Hf3)
    by (unfold formats; set_solver).
  intros run. subst run.
  download_cases remote disk pic_id output; simpl;
    (split; [intros path Hpath; by rewrite ?lookup_insert_ne|]);
    (split;
     [intros Hnone; try done;
      first [ by (pose proof (Hnone "jpeg" _ Hf1 Hjpeg); lia)
            | by (pose proof (Hnone "jpg" _ Hf2 Hjpg); lia)
            | by (pose proof (Hnone "png" _ Hf3 Hpng); lia) ]
     |intros url Hurl; try done; discriminate Hurl]).
Qed.

(** The file written for picture 7 is the only one the download touches. *)
Lemma download_picture_frame_witness :
  files (download_picture demo_remote demo_disk 7 "out/7.jpeg"
           {| requests := []; files := {["out/1.jpeg" := demo_png]} |}).2
    !! "out/1.jpeg" = Some demo_png.
Proof.
  refine (eq_trans
            (proj1 (download_picture_frame demo_remote demo_disk 7 "out/7.jpeg"
                      {| requests := []; files := {["out/1.jpeg" := demo_png]} |})
               "out/1.jpeg" _) _).
  - intros H; discriminate H.
  - vm_compute. reflexivity.
Defined.

(** X8 (what a download raises).  If [download_picture] raises, then
    either the request for one of the three addresses raised that exception
    and no file was written, or an attempt was answered with a status below
    300 and the write of the destination raised it: when [open] failed the
    files are as they were, when the write failed after [open] the
    destination holds what the file system kept of it. *)
Theorem download_picture_raises
    (remote : string → gmap string Z → outcome exn Response)
    (disk : string → list Byte.byte → write_outcome)
    (pic_id : Z) (output : string) (w w' : world) (e : exn) :
  download_picture remote disk pic_id output w = (Raised e, w') →
  ((∃ format, format ∈ formats ∧ remote (picture_url pic_id format) ∅ = Raised e) ∧
   files w' = files w) ∨
  (∃ format r,
     format ∈ formats ∧ remote (picture_url pic_id format) ∅ = Returned r ∧
     status_code r < 300 ∧
     ((disk output (content r) = OpenFailed e ∧ files w' = files w) ∨
      (∃ kept, disk output (content r) = WriteFailed e kept ∧
               files w' = <[output := kept]> (files w)))).
Proof.
  assert ("jpeg" ∈ formats ∧ "jpg" ∈ formats ∧ "png" ∈ formats) as (Hf1 & Hf2 & Hf3)
    by (unfold formats; set_solver).
  download_cases remote disk pic_id output; intros [= <- <-]; simpl.
  - right. exists "jpeg", r1. repeat (split; [done|]). by left.
  - right. exists "jpeg", r1. repeat (split; [done|]). right. by eexists.
  - right. exists "jpg", r2. repeat (split; [done|]). by left.
  - right. exists "jpg", r2. repeat (split; [done|]). right. by eexists.
  - right. exists "png", r3. repeat (split; [done|]). by left.
  - right. exists "png", r3. repeat (split; [done|]). right. by eexists.
  - left. split; [|done]. by exists "png".
  - left. split; [|done]. by exists "jpg".
  - left. split; [|done]. by exists "jpeg".
Qed.

(** Picture 7 is found as a png, but the folder of the destination does
    not exist. *)
Lemma download_picture_raises_witness :
  ((∃ format, format ∈ formats ∧
              demo_remote (picture_url 7 format) ∅
                = Raised (OSError "FileNotFoundError")) ∧
   files (logged demo_w0 [(picture_url 7 "jpeg", ∅); (picture_url 7 "jpg", ∅);
                          (picture_url 7 "png", ∅)]) = files demo_w0) ∨
  (∃ format r,
     format ∈ formats ∧ demo_remote (picture_url 7 format) ∅ = Returned r ∧
     status_code r < 300 ∧
     ((demo_nodir_disk "nodir/7.jpeg" (content r)
         = OpenFailed (OSError "FileNotFoundError") ∧
       files (logged demo_w0 [(picture_url 7 "jpeg", ∅); (picture_url 7 "jpg", ∅);
                              (picture_url 7 "png", ∅)]) = files demo_w0) ∨
      (∃ kept, demo_nodir_disk "nodir/7.jpeg" (content r)
                 = WriteFailed (OSError "FileNotFoundError") kept ∧
               files (logged demo_w0 [(picture_url 7 "jpeg", ∅);
                                      (picture_url 7 "jpg", ∅);
                                      (picture_url 7 "png", ∅)])
                 = <["nodir/7.jpeg" := kept]> (files demo_w0)))).
Proof.
  refine (download_picture_raises demo_remote demo_nodir_disk 7 "nodir/7.jpeg" demo_w0
            (logged demo_w0 [(picture_url 7 "jpeg", ∅); (picture_url 7 "jpg", ∅);
                             (picture_url 7 "png", ∅)])
            (OSError "FileNotFoundError") _).
  vm_compute. reflexivity.
Defined.

(** X9 (at most three requests).  Whatever the server answers,
    [download_picture] issues between one and three requests, without query
    parameters: the jpeg, jpg and png addresses of the picture in that
    order, each at most once, stopping somewhere along that list. *)
Theorem download_picture_requests
    (remote : string → gmap string Z → outcome exn Response)
    (disk : string → list Byte.byte → write_outcome)
    (pic_id : Z) (output : string) (w : world) :
  ∃ n, (1 ≤ n ≤ 3)%nat ∧
       requests (download_picture remote disk pic_id output w).2 =
         requests w ++ take n [(picture_url pic_id "jpeg", ∅);
                               (picture_url pic_id "jpg", ∅);
                               (picture_url pic_id "png", ∅)].
Proof.
  download_cases remote disk pic_id output; simpl;
    first [ by (exists 1%nat; split; [lia|])
          | by (exists 2%nat; split; [lia|])
          | by (exists 3%nat; split; [lia|]) ].
Qed.

(** An entry of the licenses comes from the dictionary the loop started
    with or from an observation that contains the picture. *)
Lemma results_loop_lookup_some results pic_ids licenses (p : Z) (s : string) :
  (results_loop results pic_ids licenses).2 !! p = Some s →
  licenses !! p = Some s ∨
  ∃ o, o ∈ results ∧ p ∈ photo_ids o ∧ s = license_text (license_code o).
Proof.
  revert pic_ids licenses. induction results as [|r results IH]; intros ?? Hs; simpl in Hs.
  - by left.
  - pose proof (photos_loop_lookup (license_code r) (photos r) pic_ids licenses p) as Hp.
    destruct (photos_loop _ _ _ _) as [pic_ids' licenses']. simpl in Hp.
    destruct (IH _ _ Hs) as [Hs'|(o & Ho & Hin & ->)].
    + rewrite Hp in Hs'. destruct (decide (p ∈ photo_id <$> photos r)) as [Hin|_].
      * right. exists r. split; [by left|]. split; [done|]. congruence.
      * by left.
    + right. exists o. split; [by right|done].
Qed.

(** Lists in strictly ascending order with the same elements are equal. *)
Lemma strictly_sorted_eq (l1 l2 : list Z) :
  StronglySorted Z.lt l1 → StronglySorted Z.lt l2 →
  (∀ x, x ∈ l1 ↔ x ∈ l2) → l1 = l2.
Proof.
  intros H1 H2 Hmem. apply (StronglySorted_unique_strong Z.lt); [|done..|].
  - intros x y _ _ Hxy Hyx. lia.
  - apply NoDup_Permutation; [by apply strictly_sorted_NoDup..|done].
Qed.

(** X10 (the keys of the licenses).  When the paginated query returns the
    observations [obs] and every picture id fits a signed integer of 64
    bits, the dictionary that [get_pictures_from_taxa] returns has exactly
    the returned picture ids as its keys, so looking up a returned id never
    fails and there is no entry for anything else; every value is "unknown"
    or the license code of an observation that contains the picture. *)
Theorem get_pictures_from_taxa_license_keys
    (remote : string → gmap string Z → outcome exn Response)
    (json_loads : string → option page)
    (taxa_id : Z) (taxa : string) (w w' : world) (obs : list observation) :
  minka_get_pagination remote json_loads "observations"
    {["taxon_id" := taxa_id]} 200 w = (Returned obs, w') →
  (∀ o p, o ∈ obs → p ∈ photo_ids o → - 2 ^ 63 ≤ p < 2 ^ 63) →
  ∃ (pic_ids : list Z) (licenses : gmap Z string),
    get_pictures_from_taxa remote json_loads taxa_id taxa w
      = (Returned (pic_ids, licenses), w') ∧
    dom licenses =@{gset Z} list_to_set pic_ids ∧
    (∀ p s, licenses !! p = Some s →
            s = "unknown" ∨
            ∃ o, o ∈ obs ∧ p ∈ photo_ids o ∧ license_code o = Some s).
Proof.
  intros Hquery Hfit. unfold get_pictures_from_taxa, bind. rewrite Hquery.
  assert (np_array (concat (photo_ids <$> obs)) = concat (photo_ids <$> obs)) as Harr.
  { apply np_array_int64. intros n (l & Hn & Hl)%elem_of_concat.
    apply list_elem_of_fmap in Hl as (o & -> & Ho). by apply (Hfit o). }
  pose proof (results_loop_ids obs [] ∅) as Hids.
  pose proof (λ p s, results_loop_lookup_some obs [] ∅ p s) as Hsome.
  pose proof (λ before o after p, results_loop_lookup_last before o after [] ∅ p) as Hlast.
  destruct (results_loop obs [] ∅) as [ids licenses] eqn:Hloop.
  simpl in Hids, Hsome. subst ids.
  exists (np_unique (concat (photo_ids <$> obs))), licenses.
  split; [done|]. split.
  - apply set_eq. intros p.
    rewrite elem_of_dom, elem_of_list_to_set, elem_of_np_unique, Harr, elem_of_concat.
    split.
    + intros [s Hs]. destruct (Hsome p s Hs) as [Hempty|(o & Ho & Hp & _)].
      * by rewrite lookup_empty in Hempty.
      * exists (photo_ids o). split; [done|]. by apply list_elem_of_fmap_2.
    + intros (l & Hp & Hl). apply list_elem_of_fmap in Hl as (o & -> & Ho).
      destruct (last_containing p obs) as (before & o' & after & Hobs & Hp' & Hafter);
        [by eauto|].
      specialize (Hlast before o' after p Hp' Hafter).
      rewrite <-Hobs, Hloop in Hlast. by eexists.
  - intros p s Hs. destruct (Hsome p s Hs) as [Hempty|(o & Ho & Hp & ->)].
    + by rewrite lookup_empty in Hempty.
    + destruct (license_code o) as [code|] eqn:Hcode; simpl; [|by left].
      destruct (decide (code = "")); [by left|].
      right. exists o. by rewrite Hcode.
Qed.

Lemma get_pictures_from_taxa_license_keys_witness :
  ∃ (pic_ids : list Z) (licenses : gmap Z string),
    get_pictures_from_taxa demo_remote demo_json_loads 12 "Chromis chromis" demo_w0
      = (Returned (pic_ids, licenses),
         logged demo_w0 [("https://minka-sdg.org:4000/v1/observations",
                          <["per_page" := 200]> {["taxon_id" := 12]})]) ∧
    dom licenses =@{gset Z} list_to_set pic_ids ∧
    (∀ p s, licenses !! p = Some s →
            s = "unknown" ∨
            ∃ o, o ∈ [demo_o1; demo_o2; demo_o3; demo_o4; demo_o5] ∧
                 p ∈ photo_ids o ∧ license_code o = Some s).
Proof.
  apply (get_pictures_from_taxa_license_keys demo_remote demo_json_loads
           12 "Chromis chromis" demo_w0).
  - vm_compute. reflexivity.
  - intros o p Ho Hp.
    repeat (apply elem_of_cons in Ho as [->|Ho];
            [cbv [photo_ids demo_o1 demo_o2 demo_o3 demo_o4 demo_o5
                  demo_observation photos fmap list_fmap photo_id] in Hp;
             repeat (apply elem_of_cons in Hp as [->|Hp];
                     [split; by vm_compute|]);
             by apply elem_of_nil in Hp|]).
    by apply elem_of_nil in Ho.
Defined.

(** X11 (the picture list does not depend on the order of the
    observations).  Two queries whose observations contain the same
    pictures, in whatever order and however often, give the same list of
    picture ids. *)
Theorem get_pictures_from_taxa_ids_order_independent
    (remote1 remote2 : string → gmap string Z → outcome exn Response)
    (json_loads1 json_loads2 : string → option page)
    (taxa_id : Z) (taxa : string) (w1 w1' w2 w2' : world)
    (obs1 obs2 : list observation) :
  minka_get_pagination remote1 json_loads1 "observations"
    {["taxon_id" := taxa_id]} 200 w1 = (Returned obs1, w1') →
  minka_get_pagination remote2 json_loads2 "observations"
    {["taxon_id" := taxa_id]} 200 w2 = (Returned obs2, w2') →
  (∀ p, (∃ o, o ∈ obs1 ∧ p ∈ photo_ids o) ↔ (∃ o, o ∈ obs2 ∧ p ∈ photo_ids o)) →
  ∃ pic_ids licenses1 licenses2,
    get_pictures_from_taxa remote1 json_loads1 taxa_id taxa w1
      = (Returned (pic_ids, licenses1), w1') ∧
    get_pictures_from_taxa remote2 json_loads2 taxa_id taxa w2
      = (Returned (pic_ids, licenses2), w2').
Proof.
  intros Hquery1 Hquery2 Hsame. unfold get_pictures_from_taxa, bind.
  rewrite Hquery1, Hquery2.
  pose proof (results_loop_ids obs1 [] ∅) as Hids1.
  pose proof (results_loop_ids obs2 [] ∅) as Hids2.
  destruct (results_loop obs1 [] ∅) as [ids1 licenses1].
  destruct (results_loop obs2 [] ∅) as [ids2 licenses2].
  simpl in Hids1, Hids2. subst ids1 ids2.
  exists (np_unique (concat (photo_ids <$> obs1))), licenses1, licenses2.
  split; [done|].
  assert (np_unique (concat (photo_ids <$> obs2)) =
          np_unique (concat (photo_ids <$> obs1))) as ->; [|done].
  apply strictly_sorted_eq; [apply np_unique_sorted..|].
  intros q. rewrite !elem_of_np_unique. apply np_array_same_elements.
  intros p. rewrite !elem_of_concat. split.
  - intros (l & Hp & Hl). apply list_elem_of_fmap in Hl as (o & -> & Ho).
    destruct (proj2 (Hsame p)) as (o' & Ho' & Hp'); [by eauto|].
    exists (photo_ids o'). split; [done|]. by apply list_elem_of_fmap_2.
  - intros (l & Hp & Hl). apply list_elem_of_fmap in Hl as (o & -> & Ho).
    destruct (proj1 (Hsame p)) as (o' & Ho' & Hp'); [by eauto|].
    exists (photo_ids o'). split; [done|]. by apply list_elem_of_fmap_2.
Qed.

Lemma get_pictures_from_taxa_ids_order_independent_witness :
  ∃ pic_ids licenses1 licenses2,
    get_pictures_from_taxa demo_remote demo_json_loads 12 "Chromis chromis" demo_w0
      = (Returned (pic_ids, licenses1),
         logged demo_w0 [("https://minka-sdg.org:4000/v1/observations",
                          <["per_page" := 200]> {["taxon_id" := 12]})]) ∧
    get_pictures_from_taxa demo_remote demo_reversed_json_loads 12 "Chromis chromis"
      demo_w0
      = (Returned (pic_ids, licenses2),
         logged demo_w0 [("https://minka-sdg.org:4000/v1/observations",
                          <["per_page" := 200]> {["taxon_id" := 12]})]).
Proof.
  refine (get_pictures_from_taxa_ids_order_independent
            demo_remote demo_remote demo_json_loads demo_reversed_json_loads
            12 "Chromis chromis" demo_w0 _ demo_w0 _
            [demo_o1; demo_o2; demo_o3; demo_o4; demo_o5]
            [demo_o5; demo_o4; demo_o3; demo_o2; demo_o1] _ _ _).
  - vm_compute. reflexivity.
  - vm_compute. reflexivity.
  - intros p. split; intros (o & Ho & Hp); exists o; (split; [|done]);
      repeat (apply elem_of_cons in Ho as [->|Ho]; [repeat constructor|]);
      by apply elem_of_nil in Ho.
Defined.

(** * Properties of the script *)

Import Script.

Lemma append_cons (c : Ascii.ascii) (s t : string) :
  String c s +:+ t = String c (s +:+ t).
Proof. reflexivity. Qed.

Lemma occurs_append (c : Ascii.ascii) (s t : string) :
  occurs c (s +:+ t) = occurs c s || occurs c t.
Proof.
  induction s as [|c' s IH]; [done|].
  rewrite append_cons. simpl. rewrite IH. by rewrite orb_assoc.
Qed.

(** Replacing a character by a text without it removes the character. *)
Lemma replace_removes (old : Ascii.ascii) (new s : string) :
  occurs old new = false → occurs old (replace old new s) = false.
Proof.
  intros Hnew. induction s as [|c s IH]; [done|]. simpl.
  destruct (decide (c = old)) as [->|Hne].
  - by rewrite occurs_append, Hnew, IH.
  - simpl. by rewrite bool_decide_eq_false_2, IH.
Qed.

(** Replacing does not bring in a character that neither the string nor
    the replacement has. *)
Lemma replace_keeps_out (c old : Ascii.ascii) (new s : string) :
  occurs c s = false → occurs c new = false → occurs c (replace old new s) = false.
Proof.
  intros Hs Hnew. induction s as [|c' s IH]; [done|]. simpl in *.
  apply orb_false_iff in Hs as [Hc' Hs].
  destruct (decide (c' = old)) as [->|Hne].
  - by rewrite occurs_append, Hnew, IH.
  - simpl. by rewrite Hc', IH.
Qed.

(** X12 (normalized names).  Whatever [str.lower] makes of the name, the
    normalized name of a taxon, which the script uses as a folder name,
    contains no space and no dot. *)
Theorem normalized_name_clean (lower : string → string) (taxa : string) :
  occurs " "%char (normalized_name lower taxa) = false ∧
  occurs "."%char (normalized_name lower taxa) = false.
Proof.
  unfold normalized_name. split.
  - apply replace_keeps_out; [|done]. by apply replace_removes.
  - by apply replace_removes.
Qed.

(** The example given in the script. *)
Example normalized_name_demo :
  normalized_name demo_lower "Chromis chromis" = "chromis_chromis" ∧
  normalized_name demo_lower "Diplodus sp. A" = "diplodus_sp_a".
Proof. split; vm_compute; reflexivity. Qed.

Section TaxaIds.
Variable lower : string → string.

Lemma exact_match_skip taxa before rest taxa_id :
  (∀ b, b ∈ before → lower (taxon_name b) ≠ lower taxa) →
  exact_match lower taxa (before ++ rest) taxa_id = exact_match lower taxa rest taxa_id.
Proof.
  induction before as [|b before IH]; intros Hbefore; [done|]. simpl.
  rewrite decide_False by (apply Hbefore; by left).
  apply IH. intros b' Hb'. apply Hbefore. by right.
Qed.
End TaxaIds.

(** X13 (the first exact match decides).  Among the results of the taxa
    query, the first one whose name equals the wanted name up to case gives
    the taxon its id, whatever comes after it; the id is recorded under the
    name as typed, unless it is 0, which the script takes for "not found"
    and records nothing. *)
Theorem record_taxa_id_first_match (lower : string → string) (taxa : string)
    (before after : list taxon) (result : taxon) (taxa_ids : gmap string Z) :
  (∀ b, b ∈ before → lower (taxon_name b) ≠ lower taxa) →
  lower (taxon_name result) = lower taxa →
  record_taxa_id lower taxa (before ++ result :: after) taxa_ids =
    if decide (taxon_id result = 0) then taxa_ids
    else <[taxa := taxon_id result]> taxa_ids.
Proof.
  intros Hbefore Hmatch. unfold record_taxa_id.
  rewrite exact_match_skip by done. simpl. by rewrite decide_True.
Qed.

(** "Chromis chromis" is the second result and also, in capitals, the
    third; the second one is taken. *)
Lemma record_taxa_id_first_match_witness :
  record_taxa_id demo_lower "chromis chromis" demo_taxa ∅ = {["chromis chromis" := 12]}.
Proof.
  refine (record_taxa_id_first_match demo_lower "chromis chromis"
            [ {| taxon_name := "Chromis"; taxon_id := 41 |} ]
            [ {| taxon_name := "CHROMIS CHROMIS"; taxon_id := 99 |} ]
            {| taxon_name := "Chromis chromis"; taxon_id := 12 |} ∅ _ _).
  - intros b Hb. apply list_elem_of_singleton in Hb as ->.
    vm_compute. intros H; discriminate H.
  - vm_compute. reflexivity.
Defined.

(** X14 (nothing is recorded without a match).  When no result of the taxa
    query has the wanted name up to case, also when there are no results,
    the dictionary of taxon ids is left as it was; and in every case the
    entries of the other names are left as they were. *)
Theorem record_taxa_id_no_match (lower : string → string) (taxa : string)
    (results : list taxon) (taxa_ids : gmap string Z) :
  ((∀ r, r ∈ results → lower (taxon_name r) ≠ lower taxa) →
   record_taxa_id lower taxa results taxa_ids = taxa_ids) ∧
  (∀ other, other ≠ taxa →
     record_taxa_id lower taxa results taxa_ids !! other = taxa_ids !! other).
Proof.
  split.
  - intros Hnone. unfold record_taxa_id.
    rewrite <-(app_nil_r results), exact_match_skip by done. done.
  - intros other Hother. unfold record_taxa_id.
    destruct (exact_match lower taxa results None) as [taxa_id|]; [|done].
    destruct (decide (taxa_id = 0)); [done|]. by rewrite lookup_insert_ne.
Qed.

Lemma record_taxa_id_no_match_witness :
  record_taxa_id demo_lower "sparus aurata" demo_taxa {["chromis chromis" := 12]}
    = {["chromis chromis" := 12]}.
Proof.
  refine (proj1 (record_taxa_id_no_match demo_lower "sparus aurata" demo_taxa
                   {["chromis chromis" := 12]}) _).
  intros r Hr. unfold demo_taxa in Hr.
  repeat (apply elem_of_cons in Hr as [->|Hr];
          [vm_compute; intros H; discriminate H|]).
  by apply elem_of_nil in Hr.
Defined.

Lemma append_empty_inv (s t : string) : s +:+ t = "" → s = "" ∧ t = "".
Proof.
  destruct s as [|c s].
  - intros H. split; [done|exact H].
  - rewrite append_cons. intros H; discriminate H.
Qed.

(** X15 (the counts of a report).  Every outcome is counted once, as a
    success or as a failure: [good + bad] is the number of outcomes.  The
    text written to [failed.txt] is empty exactly when no download failed,
    that is when [bad] is 0 and [good] is the number of outcomes. *)
Theorem good_bad_partition (stats : list (bool * string)) :
  (good stats + bad stats = length stats)%nat ∧
  (failed_text stats = "" ↔ bad stats = 0%nat) ∧
  (bad stats = 0%nat ↔ good stats = length stats).
Proof.
  assert (good stats + bad stats = length stats)%nat as Hsum.
  { unfold good, bad. induction stats as [|[[] url] stats IH]; [done|..].
    - rewrite filter_cons_True by done.
      rewrite (filter_cons_False (λ s, s.1 = false)) by done. simpl. lia.
    - rewrite filter_cons_False by done.
      rewrite (filter_cons_True (λ s, s.1 = false)) by done. simpl. lia. }
  split; [done|]. split; [|lia]. clear Hsum.
  unfold bad. induction stats as [|[[] url] stats IH]; [done|..].
  - rewrite filter_cons_False by done. simpl. exact IH.
  - rewrite filter_cons_True by done. simpl. split; [|done].
    intros Hempty. apply append_empty_inv in Hempty as [Hurl _].
    apply append_empty_inv in Hurl as [_ Hnewline]. discriminate Hnewline.
Qed.

(** X16 (a taxon without pictures).  With an empty list of download tasks
    the executor returns the empty list of outcomes, and the report that
    follows writes an empty [failed.txt] and then raises
    [ZeroDivisionError], the total being 0. *)
Theorem report_no_pictures {E}
    (os_path_join : list string → string)
    (as_completed : list (@Future (bool * string) E) → list (@Future (bool * string) E))
    (handler : @Handler (Z * string) (bool * string) E)
    (max_threads : Z) (text output taxa_norm : string) (w : world) :
  completion_order as_completed →
  0 < max_threads →
  let arguments : list (Z * string) := [] in
  let total := length arguments in
  ∃ stats,
    (threadify as_completed arguments handler max_threads text).1 = Returned stats ∧
    report os_path_join output taxa_norm stats total w =
      (Raised ZeroDivisionError,
       {| requests := requests w;
          files := <[os_path_join [output; taxa_norm; "failed.txt"] := []]> (files w) |}).
Proof.
  intros Hperm Hpos arguments total. exists [].
  split; [|done]. subst arguments.
  rewrite (threadify_returns as_completed handler (λ _, (false, "")) [] max_threads text);
    [done..|].
  intros args Hin. by apply elem_of_nil in Hin.
Qed.

Lemma report_no_pictures_witness :
  ∃ stats,
    (threadify (E:=Empty_set) reverse []
       (λ a : Z * string, Returned (true, a.2)) 10 "Downloading 0 pics...").1
      = Returned stats ∧
    report demo_join "out" "chromis_chromis" stats 0 demo_w0 =
      (Raised ZeroDivisionError,
       {| requests := []; files := {["out/chromis_chromis/failed.txt" := []]} |}).
Proof.
  refine (report_no_pictures (E:=Empty_set) demo_join reverse
            (λ a : Z * string, Returned (true, a.2)) 10 "Downloading 0 pics..."
            "out" "chromis_chromis" demo_w0 _ _).
  - intros fs. apply reverse_Permutation.
  - lia.
Defined.
